(** * Holdit dashboard: file catalog, upload coordinator, credential vault
      and session gate

    A shallow embedding of the four TypeScript/React sources
    - [src/components/FileList.tsx]
    - [src/components/FileUpload.tsx]
    - [src/components/PasswordManager.tsx]
    - [src/pages/Dashboard.tsx]

    Event handlers are embedded as functions from the values the handler
    reads (props, the state of the render it was created in, the answers of
    the remote services) to the trace of effects it performs: remote calls,
    toasts, state setters and callbacks, in program order.  [console.error]
    calls are not traced.  Strings are Rocq [string]s (8-bit characters). *)

From Stdlib Require Import Ascii String.
From stdpp Require Import base gmap sets list strings pretty.

Set Warnings "-clear-no-such-hyp".

(** * Part I: the embedding *)

(** ** Effect traces with exceptions: [try], [catch], [finally] *)

Module Eff.

(** A computation has run to its end: the effects it performed, and either
    the thrown value or the returned one. *)
Definition M (E X A : Type) : Type := (list E * (X + A))%type.

Definition ret {E X A} (a : A) : M E X A := ([], inr a).

Definition bind {E X A B} (m : M E X A) (k : A → M E X B) : M E X B :=
  match m with
  | (t, inl x) => (t, inl x)
  | (t, inr a) => let '(t', r) := k a in (t ++ t', r)
  end.

Definition emit {E X} (e : E) : M E X unit := ([e], inr tt).

Definition throw {E X A} (x : X) : M E X A := ([], inl x).

(** [try { m } catch (x) { h x }] *)
Definition try_catch {E X A} (m : M E X A) (h : X → M E X A) : M E X A :=
  match m with
  | (t, inl x) => let '(t', r) := h x in (t ++ t', r)
  | (t, inr a) => (t, inr a)
  end.

(** [try { m } finally { f }]: [f] runs on both exits; the outcome of [m]
    stands unless [f] throws itself. *)
Definition finally {E X A} (m : M E X A) (f : M E X unit) : M E X A :=
  match m, f with
  | (t, r), (t', inr _) => (t ++ t', r)
  | (t, _), (t', inl x) => (t ++ t', inl x)
  end.

(** The joint result of settled promises, as [Promise.all] reports it: the
    values in order, or a rejection reason.  Which rejection settles first is
    decided by the network; the lowest position stands for it here. *)
Fixpoint all_settled {X A} (rs : list (X + A)) : X + list A :=
  match rs with
  | [] => inr []
  | inl x :: _ => inl x
  | inr a :: rs' =>
      match all_settled rs' with
      | inl x => inl x
      | inr l => inr (a :: l)
      end
  end.

(** [await Promise.all(ps)] over promises that were all created before the
    await: the synchronous part of every one has run (its effects are
    performed, in creation order) whatever the others answer. *)
Definition promise_all {E X A} (ps : list (M E X A)) : M E X (list A) :=
  (concat (fst <$> ps), all_settled (snd <$> ps)).

Definition trace {E X A} (m : M E X A) : list E := fst m.

End Eff.

#[global] Instance M_ret {E X} : MRet (Eff.M E X) := λ A, Eff.ret.
#[global] Instance M_bind {E X} : MBind (Eff.M E X) := λ A B k m, Eff.bind m k.

(** ** The JavaScript string and array operations the sources use *)

Module JS.

(** [toLowerCase] on one character: [A]..[Z] go to [a]..[z]. *)
Definition lower_char (c : ascii) : ascii :=
  let n := nat_of_ascii c in
  if (65 <=? n) && (n <=? 90) then ascii_of_nat (n + 32) else c.

Fixpoint toLowerCase (s : string) : string :=
  match s with
  | EmptyString => EmptyString
  | String c s' => String (lower_char c) (toLowerCase s')
  end.

Definition upper_char (c : ascii) : ascii :=
  let n := nat_of_ascii c in
  if (97 <=? n) && (n <=? 122) then ascii_of_nat (n - 32) else c.

Fixpoint toUpperCase (s : string) : string :=
  match s with
  | EmptyString => EmptyString
  | String c s' => String (upper_char c) (toUpperCase s')
  end.

(** [s.split(sep)] for a one-character separator: never an empty array. *)
Fixpoint split (sep : ascii) (s : string) : list string :=
  match s with
  | EmptyString => [EmptyString]
  | String c s' =>
      if Ascii.eqb c sep then EmptyString :: split sep s'
      else match split sep s' with
           | [] => [String c EmptyString]
           | seg :: segs => String c seg :: segs
           end
  end.

(** [a.pop()] as a value: the last element, [undefined] on an empty array. *)
Definition pop {A} (a : list A) : option A := last a.

(** [x || ''] for [x : string | undefined]. *)
Definition or_empty (x : option string) : string := default EmptyString x.

(** [x || null] for [x : string | undefined]: the empty string is falsy. *)
Definition or_null (x : option string) : option string :=
  match x with
  | Some s => if decide (s = EmptyString) then None else Some s
  | None => None
  end.

(** [a.includes(x)] *)
Definition includes (a : list string) (x : string) : bool :=
  bool_decide (x ∈ a).

(** White space that [trim] removes, among 8-bit characters below 128. *)
Definition is_space (c : ascii) : bool :=
  let n := nat_of_ascii c in
  (n =? 32) || ((9 <=? n) && (n <=? 13)).

Fixpoint trimStart (s : string) : string :=
  match s with
  | EmptyString => EmptyString
  | String c s' => if is_space c then trimStart s' else s
  end.

Fixpoint trimEnd (s : string) : string :=
  match s with
  | EmptyString => EmptyString
  | String c s' =>
      match trimEnd s' with
      | EmptyString => if is_space c then EmptyString else String c EmptyString
      | rest => String c rest
      end
  end.

Definition trim (s : string) : string := trimEnd (trimStart s).

(** Does the string contain the character? *)
Fixpoint contains (c : ascii) (s : string) : bool :=
  match s with
  | EmptyString => false
  | String d s' => Ascii.eqb d c || contains c s'
  end.

(** Decimal digits, as [`${n}`] prints a non-negative integer. *)
Definition is_digit (c : ascii) : bool :=
  let n := nat_of_ascii c in
  (48 <=? n) && (n <=? 57).

Fixpoint all_digits (s : string) : bool :=
  match s with
  | EmptyString => true
  | String c s' => is_digit c && all_digits s'
  end.

End JS.

(** ** Values of the platform SDK *)

Module Auth.

Record User := { id : string; email : option string }.

(** A session is read only through [session.user]. *)
Record Session := { session_user : User }.

End Auth.

Export Auth.

(** A thrown or returned error: only its [message] is read. *)
Record JsError := { message : string }.

Inductive ToastVariant := regular | destructive.

(** ** [src/components/FileList.tsx] *)

Module FileList.

Inductive FileCategory := documentos | imagenes | videos.

#[global] Instance FileCategory_eq_dec : EqDecision FileCategory.
Proof. solve_decision. Defined.

Record FileItem := {
  name : string;
  size : N;
  created_at : string;
  path : string;
  category : FileCategory
}.

Definition imageExtensions : list string :=
  ["jpg"; "jpeg"; "png"; "gif"; "webp"; "svg"; "bmp"; "ico"].
Definition videoExtensions : list string :=
  ["mp4"; "avi"; "mov"; "mkv"; "wmv"; "flv"; "webm"; "m4v"].
Definition documentExtensions : list string :=
  ["pdf"; "doc"; "docx"; "txt"; "xls"; "xlsx"; "ppt"; "pptx"; "odt"; "rtf"; "csv"].

(** The extensions [getFileIcon] shows with the music icon. *)
Definition audioExtensions : list string := ["mp3"; "wav"; "ogg"; "m4a"].

(** [fileName.split('.').pop()?.toLowerCase()] *)
Definition extension (fileName : string) : option string :=
  JS.toLowerCase <$> JS.pop (JS.split "." fileName).

Definition getFileCategory (fileName : string) : FileCategory :=
  let ext := extension fileName in
  if JS.includes imageExtensions (JS.or_empty ext) then imagenes
  else if JS.includes videoExtensions (JS.or_empty ext) then videos
  else if JS.includes documentExtensions (JS.or_empty ext) then documentos
  else documentos.

(** The category as a function of the lowercased extension alone. *)
Definition categoryOfExtension (ext : string) : FileCategory :=
  if JS.includes imageExtensions ext then imagenes
  else if JS.includes videoExtensions ext then videos
  else documentos.

(** One entry of the store's listing: [{name, metadata?.size, created_at}]. *)
Record StorageObject := {
  so_name : string;
  so_size : option N;
  so_created_at : string
}.

Definition toFileItem (user : User) (file : StorageObject) : FileItem :=
  {| name := so_name file;
     size := default 0%N (so_size file);
     created_at := so_created_at file;
     path := id user +:+ "/" +:+ so_name file;
     category := getFileCategory (so_name file) |}.

(** [useState<FileCategory | 'todos'>] *)
Inductive ActiveCategory := todos | only (c : FileCategory).

Record State := {
  files : list FileItem;
  loading : bool;
  activeCategory : ActiveCategory
}.

Definition initial : State :=
  {| files := []; loading := true; activeCategory := todos |}.

Inductive Effect :=
| StorageList (folder : string)
| StorageRemove (paths : list string)
| StorageCreateSignedUrl (path : string) (ttl : N)
| WindowOpen (url : string)
| SetFiles (fs : list FileItem)
| SetLoading (b : bool)
| Toast (title description : string) (variant : ToastVariant).

(** A remote call is one that reaches the object store. *)
Definition is_remote (e : Effect) : bool :=
  match e with
  | StorageList _ | StorageRemove _ | StorageCreateSignedUrl _ _ => true
  | _ => false
  end.

(** The state after the setters of a trace have been applied, in order. *)
Definition apply (st : State) (e : Effect) : State :=
  match e with
  | SetFiles fs =>
      {| files := fs; loading := loading st; activeCategory := activeCategory st |}
  | SetLoading b =>
      {| files := files st; loading := b; activeCategory := activeCategory st |}
  | _ => st
  end.

Definition commit (st : State) (t : list Effect) : State := foldl apply st t.

Definition Handler := Eff.M Effect JsError.

(** [{ data, error }] as the store answers [list]. *)
Definition loadFiles (user : User)
    (answer : JsError + option (list StorageObject)) : Handler unit :=
  Eff.finally
    (Eff.try_catch
       (Eff.emit (StorageList (id user));;
        data ← (match answer with
                | inl error => Eff.throw error
                | inr data => mret data
                end);
        let fileItems := toFileItem user <$> default [] data in
        Eff.emit (SetFiles fileItems))
       (λ _, Eff.emit (Toast "Error" "No se pudieron cargar los archivos." destructive)))
    (Eff.emit (SetLoading false)).

Definition getCategoryCount (files : list FileItem) (category : FileCategory) : nat :=
  length (filter (λ f, FileList.category f = category) files).

Definition filteredFiles (files : list FileItem) (activeCategory : ActiveCategory)
    : list FileItem :=
  match activeCategory with
  | todos => files
  | only c => filter (λ f, category f = c) files
  end.

(** [handleDelete], created in a render whose cached list is [files]; [error]
    is the [error] field of the store's answer to [remove]. *)
Definition handleDelete (files : list FileItem) (file : FileItem)
    (error : option JsError) : Handler unit :=
  Eff.try_catch
    (Eff.emit (StorageRemove [path file]);;
     (match error with
      | Some e => Eff.throw e
      | None => mret ()
      end);;
     Eff.emit (SetFiles (filter (λ f, path f ≠ path file) files));;
     Eff.emit (Toast "Archivo eliminado" (name file +:+ " ha sido eliminado.") regular))
    (λ _, Eff.emit (Toast "Error" "No se pudo eliminar el archivo." destructive)).

(** Two delete buttons pressed in one render: both handlers are created in
    that render and close over its list; the store accepts both removes and
    the answer to the first arrives before the answer to the second. *)
Definition deleteBoth (st : State) (first second : FileItem) : State :=
  let st1 := commit st (Eff.trace (handleDelete (files st) first None)) in
  commit st1 (Eff.trace (handleDelete (files st) second None)).

(** The icon shown beside a name; the tables are written out a second time
    in [getFileIcon]. *)
Inductive Icon := ImageIcon | VideoIcon | MusicIcon | FileTextIcon | FileIcon.

Definition getFileIcon (fileName : string) : Icon :=
  let ext := extension fileName in
  if JS.includes ["jpg"; "jpeg"; "png"; "gif"; "webp"; "svg"; "bmp"; "ico"]
       (JS.or_empty ext) then ImageIcon
  else if JS.includes ["mp4"; "avi"; "mov"; "mkv"; "wmv"; "flv"; "webm"; "m4v"]
            (JS.or_empty ext) then VideoIcon
  else if JS.includes ["mp3"; "wav"; "ogg"; "m4a"] (JS.or_empty ext) then MusicIcon
  else if JS.includes ["pdf"; "doc"; "docx"; "txt"; "xls"; "xlsx"; "ppt"; "pptx"]
            (JS.or_empty ext) then FileTextIcon
  else FileIcon.

(** [handleOpenFile]: [answer] is the store's answer to [createSignedUrl],
    its value being [data?.signedUrl]; the window opens in a new tab. *)
Definition handleOpenFile (file : FileItem) (answer : JsError + option string)
    : Handler unit :=
  Eff.try_catch
    (Eff.emit (StorageCreateSignedUrl (path file) 3600);;
     signedUrl ← (match answer with
                  | inl error => Eff.throw error
                  | inr data => mret data
                  end);
     match signedUrl with
     | Some url => if decide (url = "") then mret () else Eff.emit (WindowOpen url)
     | None => mret ()
     end)
    (λ _, Eff.emit (Toast "Error" "No se pudo abrir el archivo." destructive)).

(** What the user and the effect hook do to a mounted list, one at a time:
    the listing is (re)loaded, an entry of the current render is deleted or
    opened, a category tab is chosen. *)
Inductive Action :=
| Load (answer : JsError + option (list StorageObject))
| Delete (file : FileItem) (error : option JsError)
| Open (file : FileItem) (answer : JsError + option string)
| SelectCategory (c : ActiveCategory).

Definition setActiveCategory (c : ActiveCategory) (st : State) : State :=
  {| files := files st; loading := loading st; activeCategory := c |}.

Definition act (user : User) (st : State) (a : Action) : State :=
  match a with
  | Load answer => commit st (Eff.trace (loadFiles user answer))
  | Delete file error => commit st (Eff.trace (handleDelete (files st) file error))
  | Open file answer => commit st (Eff.trace (handleOpenFile file answer))
  | SelectCategory c => setActiveCategory c st
  end.

Definition session (user : User) (actions : list Action) : State :=
  foldl (act user) initial actions.

(** A listing as the store gives it: no two objects of a folder share a name. *)
Definition well_listed (a : Action) : Prop :=
  match a with
  | Load (inr (Some data)) => NoDup (so_name <$> data)
  | _ => True
  end.

End FileList.

(** ** [src/components/FileList.tsx]: download *)

Module FileDownload.

(** [handleDownload] works on the document as well as on the store. *)
Inductive Effect :=
| StorageDownload (path : string)
| CreateObjectURL (blob : string)
| AppendAnchor
| AnchorClick (href download : string)
| RemoveAnchor
| RevokeObjectURL (url : string)
| Catalog (e : FileList.Effect).

Definition Handler := Eff.M Effect JsError.

(** The part of a trace that reaches the file list component. *)
Definition catalog (t : list Effect) : list FileList.Effect :=
  omap (λ e, match e with Catalog c => Some c | _ => None end) t.

(** [answer] is the store's answer to [download] (the bytes), [url] the
    address the browser mints for them. *)
Definition handleDownload (file : FileList.FileItem) (answer : JsError + string)
    (url : string) : Handler unit :=
  Eff.try_catch
    (Eff.emit (StorageDownload (FileList.path file));;
     data ← (match answer with
             | inl error => Eff.throw error
             | inr data => mret data
             end);
     Eff.emit (CreateObjectURL data);;
     Eff.emit AppendAnchor;;
     Eff.emit (AnchorClick url (FileList.name file));;
     Eff.emit RemoveAnchor;;
     Eff.emit (RevokeObjectURL url);;
     Eff.emit (Catalog (FileList.Toast "Descarga iniciada"
                          ("Descargando " +:+ FileList.name file) regular)))
    (λ _, Eff.emit (Catalog (FileList.Toast "Error"
                               "No se pudo descargar el archivo." destructive))).

End FileDownload.

(** ** [src/components/FileUpload.tsx] *)

Module FileUpload.

(** A local file handle: its name and its bytes. *)
Record File := { name : string; bytes : string }.

Inductive Effect :=
| SetIsUploading (b : bool)
| AuthGetSession
| StorageUpload (filePath : string) (file : File) (cacheControl : string) (upsert : bool)
| Toast (title description : string) (variant : ToastVariant)
| OnUploadComplete.

Definition is_put (e : Effect) : bool :=
  match e with StorageUpload _ _ _ _ => true | _ => false end.

Definition Handler := Eff.M Effect JsError.

(** What the handler reads from outside during one run: the session that
    [getSession] resolves to, the clock reading [Date.now()] returns while
    the [i]-th file of the batch is mapped, and the [error] of the store's
    answer to the [i]-th put. *)
Record World := {
  session : option Session;
  now : nat → N;
  upload_error : nat → option JsError
}.

(** [`${user.id}/${Date.now()}-${file.name}`] *)
Definition filePath (user : User) (now : N) (file : File) : string :=
  id user +:+ "/" +:+ pretty now +:+ "-" +:+ name file.

(** The callback mapped over the batch, for the file at position [i]. *)
Definition upload (user : User) (w : World) (i : nat) (file : File) : Handler string :=
  let filePath := filePath user (now w i) file in
  Eff.emit (StorageUpload filePath file "3600" false);;
  match upload_error w i with
  | Some error => Eff.throw error
  | None => mret (name file)
  end.

(** [error.message || "Hubo un error al subir los archivos."] *)
Definition failure_text (error : JsError) : string :=
  if decide (message error = "") then "Hubo un error al subir los archivos."
  else message error.

(** [onUploadComplete] is an optional prop: [true] when the parent passes it. *)
Definition handleFiles (user : User) (onUploadComplete : bool)
    (files : list File) (w : World) : Handler unit :=
  if decide (length files = 0) then mret () else
  Eff.emit (SetIsUploading true);;
  Eff.finally
    (Eff.try_catch
       (Eff.emit AuthGetSession;;
        match session w with
        | None =>
            Eff.emit (Toast "Error de autenticación"
                        "Debes iniciar sesión para subir archivos." destructive)
        | Some _ =>
            let uploadPromises := imap (upload user w) files in
            uploadedFiles ← Eff.promise_all uploadPromises;
            Eff.emit (Toast "Archivos subidos"
                        (pretty (length uploadedFiles) +:+ " archivo(s) subido(s) exitosamente.")
                        regular);;
            if onUploadComplete then Eff.emit OnUploadComplete else mret ()
        end)
       (λ error, Eff.emit (Toast "Error al subir archivos" (failure_text error) destructive)))
    (Eff.emit (SetIsUploading false)).

(** The puts of a batch, one per file, in the order of the batch. *)
Definition puts (user : User) (w : World) (files : list File) : list Effect :=
  imap (λ i file, StorageUpload (filePath user (now w i) file) file "3600" false) files.

(** The answers to the puts of a batch, as the mapped callbacks settle. *)
Definition answers (w : World) (files : list File) : list (JsError + string) :=
  imap (λ i file, match upload_error w i with
                  | Some error => inl error
                  | None => inr (name file)
                  end) files.

Definition is_notification (e : Effect) : bool :=
  match e with OnUploadComplete => true | _ => false end.

(** The remote keys of the puts a trace issued, in order. *)
Definition keys (t : list Effect) : list string :=
  omap (λ e, match e with StorageUpload k _ _ _ => Some k | _ => None end) t.

Definition is_flag (e : Effect) : bool :=
  match e with SetIsUploading _ => true | _ => false end.

End FileUpload.

(** ** [src/pages/Dashboard.tsx] *)

Module Dashboard.

Record State := {
  user : option User;
  session : option Session;
  loading : bool;
  fileRefreshTrigger : nat
}.

Definition initial : State :=
  {| user := None; session := None; loading := true; fileRefreshTrigger := 0 |}.

(** What can happen to the mounted page: the auth listener fires, the promise
    of the initial [getSession] resolves, the upload component calls back. *)
Inductive Event :=
| AuthStateChange (s : option Session)
| GetSessionResolved (s : option Session)
| UploadComplete.

Inductive Effect :=
| Navigate (to : string)
| AuthSignOut
| Toast (title description : string).

Definition redirect (s : option Session) : list Effect :=
  match s with None => [Navigate "/auth"] | Some _ => [] end.

Definition step (st : State) (ev : Event) : State * list Effect :=
  match ev with
  | AuthStateChange s =>
      ({| user := session_user <$> s; session := s;
          loading := loading st; fileRefreshTrigger := fileRefreshTrigger st |},
       redirect s)
  | GetSessionResolved s =>
      ({| user := session_user <$> s; session := s;
          loading := false; fileRefreshTrigger := fileRefreshTrigger st |},
       redirect s)
  | UploadComplete =>
      ({| user := user st; session := session st;
          loading := loading st; fileRefreshTrigger := fileRefreshTrigger st + 1 |},
       [])
  end.

Definition run (st : State) (evs : list Event) : State :=
  foldl (λ s ev, fst (step s ev)) st evs.

(** Has the promise of the initial [getSession] resolved among the events? *)
Definition is_resolution (ev : Event) : bool :=
  match ev with GetSessionResolved _ => true | _ => false end.

Definition resolved (evs : list Event) : bool := existsb is_resolution evs.

Definition handleSignOut : list Effect :=
  [AuthSignOut; Toast "Sesión cerrada" "Has cerrado sesión exitosamente."; Navigate "/"].

(** The components the page mounts, with the props it passes them. *)
Inductive Element :=
| FileUploadEl (user : User) (onUploadComplete : bool)
| FileListEl (user : User) (refreshTrigger : nat)
| PasswordManagerEl.

Inductive View :=
| Spinner
| Page (email : option string) (children : list Element).

(** [{user && <C user={user} />}] *)
Definition guarded (user : option User) (el : User → Element) : list Element :=
  match user with Some u => [el u] | None => [] end.

Definition render (st : State) : View :=
  if loading st then Spinner
  else Page (user st ≫= email)
         (guarded (user st) (λ u, FileUploadEl u true)
          ++ guarded (user st) (λ u, FileListEl u (fileRefreshTrigger st))
          ++ [PasswordManagerEl]).

Definition children (v : View) : list Element :=
  match v with Spinner => [] | Page _ els => els end.

(** The principal an element was given, for the two that take one. *)
Definition principal (el : Element) : option User :=
  match el with
  | FileUploadEl u _ | FileListEl u _ => Some u
  | PasswordManagerEl => None
  end.

(** The page reacts to the effects of the upload component it mounted. *)
Definition deliver (st : State) (t : list FileUpload.Effect) : State :=
  run st (omap (λ e, match e with
                     | FileUpload.OnUploadComplete => Some UploadComplete
                     | _ => None
                     end) t).

(** The effects of a run, in order. *)
Fixpoint run_effects (st : State) (evs : list Event) : list Effect :=
  match evs with
  | [] => []
  | ev :: evs' => snd (step st ev) ++ run_effects (fst (step st ev)) evs'
  end.

(** The session an event reports, for the two that report one. *)
Definition reported (ev : Event) : option (option Session) :=
  match ev with
  | AuthStateChange s | GetSessionResolved s => Some s
  | UploadComplete => None
  end.

Definition is_upload_complete (ev : Event) : bool :=
  match ev with UploadComplete => true | _ => false end.

End Dashboard.

(** ** [src/components/PasswordManager.tsx] *)

Module PasswordManager.

(** [z.infer<typeof passwordSchema>]: an optional field is [undefined]
    ([None]) or a string. *)
Record PasswordFormData := {
  platform_name : string;
  username : string;
  password : string;
  description : option string;
  token : option string
}.

(** [interface Password extends PasswordFormData] *)
Record Password := {
  form : PasswordFormData;
  id : string;
  created_at : string
}.

Inductive Field := platform_name_f | username_f | password_f | description_f | token_f.

#[global] Instance Field_eq_dec : EqDecision Field.
Proof. solve_decision. Defined.

(** An issue of the schema: too short, with the message the schema gives, or
    too long (the library's own message). *)
Inductive Issue :=
| too_small (minimum : nat) (message : string)
| too_big (maximum : nat).

(** [.min(n, message)] and [.max(n)] on [z.string()]: the length of the
    string as it is, compared with the bound. *)
Definition min (n : nat) (msg : string) (s : string) : list Issue :=
  if String.length s <? n then [too_small n msg] else [].

Definition max (n : nat) (s : string) : list Issue :=
  if n <? String.length s then [too_big n] else [].

(** [.optional()] *)
Definition optional (check : string → list Issue) (x : option string) : list Issue :=
  match x with
  | None => []
  | Some s => check s
  end.

Definition at_field (f : Field) (issues : list Issue) : list (Field * Issue) :=
  pair f <$> issues.

(** The issues [passwordSchema] reports, each under its field. *)
Definition passwordSchema (d : PasswordFormData) : list (Field * Issue) :=
  at_field platform_name_f
    (min 1 "El nombre de la plataforma es requerido" (platform_name d)
     ++ max 100 (platform_name d))
  ++ at_field username_f
    (min 1 "El usuario es requerido" (username d) ++ max 255 (username d))
  ++ at_field password_f
    (min 1 "La contraseña es requerida" (password d) ++ max 500 (password d))
  ++ at_field description_f (optional (max 500) (description d))
  ++ at_field token_f (optional (max 500) (token d)).

(** The field constraints as the data model words them: platform name 1 to
    100 characters, username 1 to 255, secret 1 to 500, note and token at most
    500 when present. *)
Definition bound (f : Field) : nat :=
  match f with
  | platform_name_f => 100
  | username_f => 255
  | password_f | description_f | token_f => 500
  end.

Definition value (d : PasswordFormData) (f : Field) : option string :=
  match f with
  | platform_name_f => Some (platform_name d)
  | username_f => Some (username d)
  | password_f => Some (password d)
  | description_f => description d
  | token_f => token d
  end.

Definition required (f : Field) : bool :=
  match f with
  | platform_name_f | username_f | password_f => true
  | description_f | token_f => false
  end.

Definition field_ok (d : PasswordFormData) (f : Field) : Prop :=
  match value d f with
  | None => True
  | Some s =>
      (required f = true → 1 ≤ String.length s) ∧ String.length s ≤ bound f
  end.

#[global] Instance field_ok_dec d f : Decision (field_ok d f).
Proof. unfold field_ok. destruct (value d f); apply _. Defined.

(** The row [onSubmit] inserts; [None] in an optional column is [null]. *)
Record Row := {
  row_platform_name : string;
  row_username : string;
  row_password : string;
  row_description : option string;
  row_token : option string;
  row_user_id : string
}.

Inductive Effect :=
| AuthGetUser
| DbSelect
| DbInsert (row : Row)
| DbUpdate (patch : PasswordFormData) (id : string)
| DbDelete (id : string)
| Confirm (question : string)
| SetPasswords (ps : list Password)
| SetLoading (b : bool)
| SetIsDialogOpen (b : bool)
| SetEditingPassword (p : option Password)
| SetVisiblePasswords (update : gset string → gset string)
| SetErrors (errors : list (Field * Issue))
| FormReset (values : option PasswordFormData)
| ClipboardWrite (text : string)
| Toast (title description : string) (variant : ToastVariant).

(** A remote call is one that reaches the session provider or the record
    store. *)
Definition is_remote (e : Effect) : bool :=
  match e with
  | AuthGetUser | DbSelect | DbInsert _ | DbUpdate _ _ | DbDelete _ => true
  | _ => false
  end.

Record State := {
  passwords : list Password;
  loading : bool;
  isDialogOpen : bool;
  visiblePasswords : gset string;
  editingPassword : option Password
}.

Definition initial : State :=
  {| passwords := []; loading := true; isDialogOpen := false;
     visiblePasswords := ∅; editingPassword := None |}.

Definition apply (st : State) (e : Effect) : State :=
  match e with
  | SetPasswords ps =>
      {| passwords := ps; loading := loading st; isDialogOpen := isDialogOpen st;
         visiblePasswords := visiblePasswords st; editingPassword := editingPassword st |}
  | SetLoading b =>
      {| passwords := passwords st; loading := b; isDialogOpen := isDialogOpen st;
         visiblePasswords := visiblePasswords st; editingPassword := editingPassword st |}
  | SetIsDialogOpen b =>
      {| passwords := passwords st; loading := loading st; isDialogOpen := b;
         visiblePasswords := visiblePasswords st; editingPassword := editingPassword st |}
  | SetEditingPassword p =>
      {| passwords := passwords st; loading := loading st; isDialogOpen := isDialogOpen st;
         visiblePasswords := visiblePasswords st; editingPassword := p |}
  | SetVisiblePasswords update =>
      {| passwords := passwords st; loading := loading st; isDialogOpen := isDialogOpen st;
         visiblePasswords := update (visiblePasswords st);
         editingPassword := editingPassword st |}
  | _ => st
  end.

Definition commit (st : State) (t : list Effect) : State := foldl apply st t.

Definition Handler := Eff.M Effect JsError.

(** The answers of the services during one run: the user [getUser] resolves
    to, the [error] of the answer to the write, the answer to the select. *)
Record World := {
  getUser : option User;
  write_error : option JsError;
  select_answer : JsError + option (list Password)
}.

Definition raise_if (error : option JsError) : Handler unit :=
  match error with
  | Some e => Eff.throw e
  | None => mret ()
  end.

Definition fetchPasswords (w : World) : Handler unit :=
  Eff.finally
    (Eff.try_catch
       (Eff.emit DbSelect;;
        data ← (match select_answer w with
                | inl error => Eff.throw error
                | inr data => mret data
                end);
        Eff.emit (SetPasswords (default [] data)))
       (λ error, Eff.emit (Toast "Error" (message error) destructive)))
    (Eff.emit (SetLoading false)).

Definition onSubmit (editingPassword : option Password) (w : World)
    (data : PasswordFormData) : Handler unit :=
  Eff.try_catch
    (Eff.emit AuthGetUser;;
     user ← (match getUser w with
             | None => Eff.throw {| message := "Usuario no autenticado" |}
             | Some u => mret u
             end);
     (match editingPassword with
      | Some editing =>
          Eff.emit (DbUpdate data (id editing));;
          raise_if (write_error w);;
          Eff.emit (Toast "Contraseña actualizada"
                      "La contraseña se actualizó correctamente." regular)
      | None =>
          Eff.emit (DbInsert
                      {| row_platform_name := platform_name data;
                         row_username := username data;
                         row_password := password data;
                         row_description := JS.or_null (description data);
                         row_token := JS.or_null (token data);
                         row_user_id := Auth.id user |});;
          raise_if (write_error w);;
          Eff.emit (Toast "Contraseña guardada"
                      "La contraseña se guardó correctamente." regular)
      end);;
     Eff.emit (SetIsDialogOpen false);;
     Eff.emit (FormReset None);;
     Eff.emit (SetEditingPassword None);;
     fetchPasswords w)
    (λ error, Eff.emit (Toast "Error" (message error) destructive)).

(** [handleSubmit(onSubmit)] of the form library with the schema as its
    resolver: the values are checked first; [onSubmit] runs on the values only
    when the schema reports no issue, otherwise the issues become the form's
    [errors]. *)
Definition handleSubmit (onSubmit : PasswordFormData → Handler unit)
    (values : PasswordFormData) : Handler unit :=
  match passwordSchema values with
  | [] => onSubmit values
  | errors => Eff.emit (SetErrors errors)
  end.

(** The form's submit handler as the component wires it. *)
Definition submit (editingPassword : option Password) (w : World)
    (values : PasswordFormData) : Handler unit :=
  handleSubmit (onSubmit editingPassword w) values.

(** The updater [togglePasswordVisibility] passes to the setter. *)
Definition toggle (id : string) (prev : gset string) : gset string :=
  let newSet := prev in
  if decide (id ∈ newSet) then newSet ∖ {[id]} else newSet ∪ {[id]}.

Definition togglePasswordVisibility (id : string) : Handler unit :=
  Eff.emit (SetVisiblePasswords (toggle id)).

(** [handleDelete]: [confirmed] is the user's answer to the question; the
    remote delete is issued only after a yes. *)
Definition handleDelete (id : string) (confirmed : bool) (w : World) : Handler unit :=
  Eff.emit (Confirm "¿Estás seguro de eliminar esta contraseña?");;
  if negb confirmed then mret () else
  Eff.try_catch
    (Eff.emit (DbDelete id);;
     raise_if (write_error w);;
     Eff.emit (Toast "Contraseña eliminada"
                 "La contraseña se eliminó correctamente." regular);;
     fetchPasswords w)
    (λ error, Eff.emit (Toast "Error" (message error) destructive)).

Definition copyToClipboard (text label : string) : Handler unit :=
  Eff.emit (ClipboardWrite text);;
  Eff.emit (Toast "Copiado" (label +:+ " copiado al portapapeles.") regular).

(** What a card shows for the secret: in clear only while the id is in the
    reveal-set. *)
Definition shown (st : State) (pwd : Password) : string :=
  if decide (id pwd ∈ visiblePasswords st) then password (form pwd)
  else "••••••••".

Definition is_write (e : Effect) : bool :=
  match e with DbInsert _ | DbUpdate _ _ => true | _ => false end.

(** The writes a trace sent to the record store. *)
Definition writes (t : list Effect) : list Effect := List.filter is_write t.

(** The required fields of the rows and patches a trace sent to the store. *)
Definition sent (t : list Effect) : list (string * string * string) :=
  omap (λ e, match e with
             | DbInsert r => Some (row_platform_name r, row_username r, row_password r)
             | DbUpdate d _ => Some (platform_name d, username d, password d)
             | _ => None
             end) t.

(** What a card shows for the token, under the same reveal-set. *)
Definition shown_token (st : State) (pwd : Password) : option string :=
  match token (form pwd) with
  | Some t =>
      if decide (t = "") then None
      else Some (if decide (id pwd ∈ visiblePasswords st) then t else "••••••••")
  | None => None
  end.

Definition handleEdit (password : Password) : Handler unit :=
  Eff.emit (SetEditingPassword (Some password));;
  Eff.emit (FormReset (Some (form password)));;
  Eff.emit (SetIsDialogOpen true).

Definition handleCloseDialog : Handler unit :=
  Eff.emit (SetIsDialogOpen false);;
  Eff.emit (SetEditingPassword None);;
  Eff.emit (FormReset (Some {| platform_name := ""; username := ""; password := "";
                               description := Some ""; token := Some "" |})).

(** The submit handler of the render whose state is [st]. *)
Definition submitForm (st : State) (w : World) (values : PasswordFormData)
    : Handler unit :=
  submit (editingPassword st) w values.

Definition is_select (e : Effect) : bool :=
  match e with DbSelect => true | _ => false end.

End PasswordManager.

(** * Part II: properties *)

(** ** The string operations on sample inputs *)

Example split_three : JS.split "." "a.tar.gz" = ["a"; "tar"; "gz"].
Proof. reflexivity. Qed.

Example split_empty : JS.split "." "" = [""].
Proof. reflexivity. Qed.

Example split_trailing : JS.split "." "notes." = ["notes"; ""].
Proof. reflexivity. Qed.

Example split_hidden : JS.split "." ".env" = [""; "env"].
Proof. reflexivity. Qed.

Example toLowerCase_mixed : JS.toLowerCase "Photo_01.JPeG" = "photo_01.jpeg".
Proof. reflexivity. Qed.

Example trim_spaces : JS.trim "  mi banco  " = "mi banco".
Proof. reflexivity. Qed.

Example trim_blank : JS.trim "   " = "".
Proof. reflexivity. Qed.

Example or_null_empty : JS.or_null (Some "") = None ∧ JS.or_null (Some "x") = Some "x".
Proof. split; reflexivity. Qed.

Example filePath_sample :
  FileUpload.filePath {| Auth.id := "u1"; email := None |} 1700000000000
    {| FileUpload.name := "a.pdf"; FileUpload.bytes := "" |}
  = "u1/1700000000000-a.pdf".
Proof. vm_compute. reflexivity. Qed.

Example getFileCategory_samples :
  FileList.getFileCategory "1700000000000-informe.PDF" = FileList.documentos
  ∧ FileList.getFileCategory "1700000000000-foto.JPG" = FileList.imagenes
  ∧ FileList.getFileCategory "1700000000000-clip.webm" = FileList.videos
  ∧ FileList.getFileCategory "1700000000000-tema.mp3" = FileList.documentos
  ∧ FileList.getFileCategory "1700000000000-LEEME" = FileList.documentos.
Proof. repeat split; reflexivity. Qed.

(** ** File catalog: category derivation *)

Section Category.
Import FileList.

Lemma getFileCategory_factors fileName :
  getFileCategory fileName = categoryOfExtension (JS.or_empty (extension fileName)).
Proof.
  unfold getFileCategory, categoryOfExtension.
  repeat case_match; reflexivity.
Qed.

Lemma getFileCategory_same_extension a b :
  extension a = extension b → getFileCategory a = getFileCategory b.
Proof. intros Heq. rewrite !getFileCategory_factors, Heq. reflexivity. Qed.

Lemma getFileCategory_unrecognized fileName :
  JS.includes imageExtensions (JS.or_empty (extension fileName)) = false →
  JS.includes videoExtensions (JS.or_empty (extension fileName)) = false →
  getFileCategory fileName = documentos.
Proof.
  intros Hi Hv. rewrite getFileCategory_factors.
  unfold categoryOfExtension. rewrite Hi, Hv. reflexivity.
Qed.

Lemma split_nonempty sep s : JS.split sep s ≠ [].
Proof.
  destruct s as [|c s]; simpl; [discriminate|].
  destruct (Ascii.eqb c sep); [discriminate|].
  destruct (JS.split sep s); discriminate.
Qed.

Lemma split_no_separator sep s : JS.contains sep s = false → JS.split sep s = [s].
Proof.
  induction s as [|c s IH]; [reflexivity|]. simpl.
  intros [Hc Hs]%orb_false_iff. rewrite Hc, (IH Hs). reflexivity.
Qed.

Lemma split_two_segments sep stem rest :
  ∃ a b l, JS.split sep (stem +:+ String sep rest) = a :: b :: l.
Proof.
  induction stem as [|c stem (a & b & l & IH)]; simpl.
  - rewrite Ascii.eqb_refl.
    destruct (JS.split sep rest) as [|b l] eqn:Hs; [by apply split_nonempty in Hs|].
    by exists "", b, l.
  - rewrite IH. destruct (Ascii.eqb c sep); eauto.
Qed.

Lemma last_split_append sep stem rest :
  last (JS.split sep (stem +:+ String sep rest)) = last (JS.split sep rest).
Proof.
  induction stem as [|c stem IH]; simpl.
  - rewrite Ascii.eqb_refl.
    destruct (JS.split sep rest) eqn:Hs; [by apply split_nonempty in Hs|reflexivity].
  - destruct (split_two_segments sep stem rest) as (a & b & l & Hs).
    rewrite Hs in IH |- *. destruct (Ascii.eqb c sep); exact IH.
Qed.

(** The last segment of [stem.ext] is [ext] when [ext] has no dot. *)
Lemma split_last_append stem ext :
  JS.contains "." ext = false →
  JS.pop (JS.split "." (stem +:+ "." +:+ ext)) = Some ext.
Proof.
  intros Hext. unfold JS.pop. change ("." +:+ ext) with (String "." ext).
  rewrite last_split_append, split_no_separator by exact Hext. reflexivity.
Qed.

(** With a dot in the name, the category is decided by the text after the
    last dot, lowercased: upper and lower case spellings agree. *)
Lemma getFileCategory_dotted stem ext :
  JS.contains "." ext = false →
  getFileCategory (stem +:+ "." +:+ ext) = categoryOfExtension (JS.toLowerCase ext).
Proof.
  intros Hdot. rewrite getFileCategory_factors.
  unfold extension. rewrite split_last_append by exact Hdot. reflexivity.
Qed.

Lemma lower_upper_char c : JS.lower_char (JS.upper_char c) = JS.lower_char c.
Proof. destruct c as [[] [] [] [] [] [] [] []]; reflexivity. Qed.

Lemma toLowerCase_toUpperCase s : JS.toLowerCase (JS.toUpperCase s) = JS.toLowerCase s.
Proof.
  induction s as [|c s IH]; [reflexivity|].
  simpl. by rewrite lower_upper_char, IH.
Qed.

Lemma contains_dot_toUpperCase s : JS.contains "." (JS.toUpperCase s) = JS.contains "." s.
Proof.
  induction s as [|c s IH]; [reflexivity|].
  simpl. rewrite IH. f_equal.
  destruct c as [[] [] [] [] [] [] [] []]; reflexivity.
Qed.

(** The spelling of the extension in capitals changes nothing. *)
Lemma getFileCategory_case_insensitive stem ext :
  JS.contains "." ext = false →
  getFileCategory (stem +:+ "." +:+ JS.toUpperCase ext)
    = getFileCategory (stem +:+ "." +:+ ext).
Proof.
  intros Hdot. rewrite !getFileCategory_dotted, ?toLowerCase_toUpperCase;
    [reflexivity|exact Hdot|by rewrite contains_dot_toUpperCase].
Qed.

(** Without a dot, the whole name is looked up in the tables. *)
Lemma getFileCategory_dotless fileName :
  JS.contains "." fileName = false →
  getFileCategory fileName = categoryOfExtension (JS.toLowerCase fileName).
Proof.
  intros Hdot. rewrite getFileCategory_factors.
  unfold extension. rewrite split_no_separator by exact Hdot. reflexivity.
Qed.

(** Audio files: the four extensions the icon table knows fall to the default. *)
Lemma getFileCategory_audio stem ext :
  JS.toLowerCase ext ∈ audioExtensions →
  JS.contains "." ext = false →
  getFileCategory (stem +:+ "." +:+ ext) = documentos.
Proof.
  intros Hin Hdot. rewrite getFileCategory_dotted by exact Hdot.
  unfold audioExtensions in Hin.
  repeat (apply elem_of_cons in Hin as [->|Hin]; [reflexivity|]).
  by apply elem_of_nil in Hin.
Qed.

(** A name that ends in a dot has the empty extension. *)
Lemma getFileCategory_trailing_dot stem :
  getFileCategory (stem +:+ ".") = documentos.
Proof.
  rewrite getFileCategory_factors. unfold extension.
  change (stem +:+ ".") with (stem +:+ "." +:+ "").
  rewrite split_last_append by reflexivity. reflexivity.
Qed.

Lemma includes_elem_of a x : JS.includes a x = true ↔ x ∈ a.
Proof. unfold JS.includes. apply bool_decide_eq_true. Qed.

Lemma categoryOfExtension_default ext :
  ext ∉ imageExtensions → ext ∉ videoExtensions → categoryOfExtension ext = documentos.
Proof.
  intros Hi Hv. unfold categoryOfExtension, JS.includes.
  by rewrite !bool_decide_eq_false_2.
Qed.

(** A name as the upload coordinator stores it, [{millis}-{original name}],
    with an original name that has no dot: the whole stored name is looked
    up, and its dash keeps it out of the tables. *)
Lemma lower_char_dash c : JS.lower_char c = "-"%char ↔ c = "-"%char.
Proof. destruct c as [[] [] [] [] [] [] [] []]; split; (reflexivity || discriminate). Qed.

Lemma contains_dash_toLowerCase s :
  JS.contains "-" (JS.toLowerCase s) = JS.contains "-" s.
Proof.
  induction s as [|c s IH]; [reflexivity|].
  simpl. rewrite IH. f_equal.
  destruct (Ascii.eqb_spec c "-") as [->|Hne]; [reflexivity|].
  apply Ascii.eqb_neq. by rewrite lower_char_dash.
Qed.

Lemma contains_append c a b :
  JS.contains c (a +:+ b) = JS.contains c a || JS.contains c b.
Proof.
  induction a as [|d a IH]; [reflexivity|].
  simpl. by rewrite IH, orb_assoc.
Qed.

Lemma digits_no_dot d : JS.all_digits d = true → JS.contains "." d = false.
Proof.
  induction d as [|c d IH]; [reflexivity|].
  simpl. intros [Hc Hd]%andb_true_iff. rewrite (IH Hd), orb_false_r.
  destruct c as [[] [] [] [] [] [] [] []]; try reflexivity; discriminate.
Qed.

Lemma getFileCategory_stored_dotless (stamp original : string) :
  JS.all_digits stamp = true → JS.contains "." original = false →
  getFileCategory (stamp +:+ "-" +:+ original) = documentos.
Proof.
  intros Hd Ho. rewrite getFileCategory_dotless.
  - apply categoryOfExtension_default; intros Hin;
      assert (JS.contains "-" (JS.toLowerCase (stamp +:+ "-" +:+ original)) = true)
        as Hdash
        by (rewrite contains_dash_toLowerCase, !contains_append; simpl;
            by rewrite orb_true_r);
      revert Hdash; generalize (JS.toLowerCase (stamp +:+ "-" +:+ original)) Hin;
      intros x Hx;
      repeat (apply elem_of_cons in Hx as [->|Hx]; [discriminate|]);
      by apply elem_of_nil in Hx.
  - rewrite !contains_append, (digits_no_dot _ Hd), Ho. reflexivity.
Qed.

(** C6 (as the code has it): the category is a function of one text alone,
    the lowercased last dot-separated segment of the name: the text after the
    last dot, and the whole name when the name has no dot.  Whenever that text
    is in neither the image nor the video table the category is documents; in
    particular for the audio extensions mp3, wav, ogg, m4a and for the empty
    text. *)
Theorem getFileCategory_by_last_segment (fileName : string) :
  let ext := JS.or_empty (extension fileName) in
  getFileCategory fileName = categoryOfExtension ext
  ∧ (JS.contains "." fileName = false → ext = JS.toLowerCase fileName)
  ∧ (∀ stem e, fileName = stem +:+ "." +:+ e → JS.contains "." e = false →
       ext = JS.toLowerCase e)
  ∧ (ext ∉ imageExtensions → ext ∉ videoExtensions →
       getFileCategory fileName = documentos)
  ∧ (ext ∈ audioExtensions ∨ ext = "" → getFileCategory fileName = documentos).
Proof.
  intros ext. subst ext. split; [apply getFileCategory_factors|].
  split; [|split; [|split]].
  - intros Hdot. unfold extension. by rewrite split_no_separator.
  - intros stem e -> Hdot. unfold extension. by rewrite split_last_append.
  - intros Hi Hv. rewrite getFileCategory_factors.
    by apply categoryOfExtension_default.
  - intros Hext. rewrite getFileCategory_factors.
    destruct Hext as [Haudio| ->]; [|reflexivity].
    unfold audioExtensions in Haudio.
    repeat (apply elem_of_cons in Haudio as [->|Haudio]; [reflexivity|]).
    by apply elem_of_nil in Haudio.
Qed.

(** C6, on an audio file with its extension in capitals. *)
Lemma getFileCategory_by_last_segment_witness :
  getFileCategory "cancion.MP3" = documentos.
Proof.
  destruct (getFileCategory_by_last_segment "cancion.MP3") as (_ & _ & _ & _ & Haudio).
  apply Haudio. left. vm_compute. left.
Defined.

(** C6 as worded fails: a name without a dot has no extension, yet the whole
    name is looked up in the tables: the file named [png] is put under
    images and [mp4] under videos, not under documents. *)
Lemma getFileCategory_dotless_name_is_extension :
  JS.contains "." "png" = false ∧ getFileCategory "png" = imagenes
  ∧ JS.contains "." "mp4" = false ∧ getFileCategory "mp4" = videos.
Proof. repeat split; reflexivity. Qed.

End Category.

(** ** File catalog: delete *)

Section Delete.
Import FileList.

Lemma commit_app st t1 t2 : commit (commit st t1) t2 = commit st (t1 ++ t2).
Proof. unfold commit. by rewrite foldl_app. Qed.

(** The two traces [handleDelete] can leave. *)
Lemma handleDelete_failed files file e :
  Eff.trace (handleDelete files file (Some e)) =
    [StorageRemove [path file];
     Toast "Error" "No se pudo eliminar el archivo." destructive].
Proof. reflexivity. Qed.

Lemma handleDelete_succeeded files file :
  Eff.trace (handleDelete files file None) =
    [StorageRemove [path file];
     SetFiles (filter (λ f, path f ≠ path file) files);
     Toast "Archivo eliminado" (name file +:+ " ha sido eliminado.") regular].
Proof. reflexivity. Qed.

(** X25: what a delete leaves in the cache, for a handler created in a
    render whose list is [closure] and settling on a component in state [st].
    A failed [remove] leaves the state as it is and shows the error toast,
    whatever [closure] is.  A successful one sets the cached list to
    [closure] without the entries that carry the deleted path, whatever the
    cache has become meanwhile; when [closure] is still the cached list, an
    entry stays exactly when its path differs from the deleted one.  The only
    remote call is the [remove]: the listing is not fetched again. *)
Theorem handleDelete_settles
    (closure : list FileItem) (st : State) (file : FileItem) (error : option JsError) :
  let t := Eff.trace (handleDelete closure file error) in
  (∀ e, error = Some e →
     commit st t = st
     ∧ Toast "Error" "No se pudo eliminar el archivo." destructive ∈ t)
  ∧ (error = None →
     files (commit st t) = filter (λ f, path f ≠ path file) closure
     ∧ (closure = files st →
        ∀ f, f ∈ files (commit st t) ↔ f ∈ files st ∧ path f ≠ path file))
  ∧ List.filter is_remote t = [StorageRemove [path file]].
Proof.
  destruct error as [e|]; cbn zeta.
  - rewrite handleDelete_failed. split; [|split; [discriminate|reflexivity]].
    intros _ _. split; [by destruct st|set_solver].
  - rewrite handleDelete_succeeded. split; [discriminate|]. split; [|reflexivity].
    intros _. split; [reflexivity|].
    intros -> f. cbn. rewrite list_elem_of_filter. tauto.
Qed.

(** X25, on a delete the store rejects. *)
Lemma handleDelete_settles_witness :
  let doc := {| name := "a.pdf"; size := 10; created_at := "2024-01-03";
                path := "u1/a.pdf"; category := documentos |} in
  let st := {| files := [doc]; loading := false; activeCategory := todos |} in
  commit st (Eff.trace (handleDelete (files st) doc
                          (Some {| message := "Object not found" |}))) = st.
Proof.
  intros doc st.
  destruct (handleDelete_settles (files st) st doc
              (Some {| message := "Object not found" |})) as (Hfailed & _ & _).
  by apply (Hfailed {| message := "Object not found" |}).
Defined.

(** C4 (witnessed defect): the handler filters the list of its own render,
    not the list cached when the store answers.  Two entries deleted from one
    render, both accepted by the store: the answer to the first leaves the
    other two cached, the answer to the second puts the first entry back and
    drops the second.  The second delete has not removed exactly the entry
    with its path from the cached list. *)
Theorem stale_delete_restores_entry :
  let a := {| name := "a.pdf"; size := 10; created_at := "2024-01-03";
              path := "u1/a.pdf"; category := documentos |} in
  let b := {| name := "b.png"; size := 20; created_at := "2024-01-02";
              path := "u1/b.png"; category := imagenes |} in
  let c := {| name := "c.mp4"; size := 30; created_at := "2024-01-01";
              path := "u1/c.mp4"; category := videos |} in
  let st := {| files := [a; b; c]; loading := false; activeCategory := todos |} in
  let st1 := commit st (Eff.trace (handleDelete (files st) a None)) in
  files st1 = [b; c]
  ∧ files (deleteBoth st a b) = [a; c]
  ∧ files (deleteBoth st a b) ≠ filter (λ f, path f ≠ path b) (files st1).
Proof.
  intros a b c st st1.
  assert (H1 : files st1 = [b; c]) by (vm_compute; reflexivity).
  assert (H2 : files (deleteBoth st a b) = [a; c]) by (vm_compute; reflexivity).
  split; [exact H1|]. split; [exact H2|].
  rewrite H1, H2. vm_compute. discriminate.
Qed.

(** Counting a category over a list, one entry at a time. *)
Lemma getCategoryCount_cons f fs c :
  getCategoryCount (f :: fs) c =
    (if decide (category f = c) then 1 else 0) + getCategoryCount fs c.
Proof.
  unfold getCategoryCount. rewrite filter_cons.
  destruct (decide (category f = c)); reflexivity.
Qed.

(** Removing a path that no entry carries removes nothing. *)
Lemma filter_absent_path (fs : list FileItem) p :
  p ∉ path <$> fs → filter (λ f, path f ≠ p) fs = fs.
Proof.
  induction fs as [|f fs IH]; [reflexivity|].
  rewrite fmap_cons, not_elem_of_cons. intros [Hne Hnot].
  rewrite filter_cons_True by congruence. by rewrite IH.
Qed.

(** With pairwise distinct paths, removing the path of an entry drops that
    entry from its category and touches no other count. *)
Lemma count_after_removal (fs : list FileItem) file c :
  NoDup (path <$> fs) → file ∈ fs →
  getCategoryCount (filter (λ f, path f ≠ path file) fs) c
    + (if decide (category file = c) then 1 else 0)
  = getCategoryCount fs c.
Proof.
  induction fs as [|f fs IH]; intros Hnd Hin.
  - by apply elem_of_nil in Hin.
  - rewrite fmap_cons in Hnd. apply NoDup_cons in Hnd as [Hfresh Hnd].
    apply elem_of_cons in Hin as [->|Hin].
    + rewrite filter_cons_False by (intros Hne; by apply Hne).
      rewrite filter_absent_path by exact Hfresh.
      rewrite getCategoryCount_cons. lia.
    + assert (path f ≠ path file) as Hne.
      { intros Heq. apply Hfresh. rewrite Heq. by apply list_elem_of_fmap_2. }
      rewrite filter_cons_True by exact Hne.
      rewrite !getCategoryCount_cons, <- (IH Hnd Hin). lia.
Qed.

(** The cached list keeps pairwise distinct paths: it has them when it is
    built from a listing with distinct names, and a delete preserves them. *)
Lemma toFileItem_paths_distinct user (data : list StorageObject) :
  NoDup (so_name <$> data) → NoDup (path <$> (toFileItem user <$> data)).
Proof.
  intros Hnd. rewrite <- list_fmap_compose.
  change (path ∘ toFileItem user) with (λ o, Auth.id user +:+ "/" +:+ so_name o).
  rewrite (list_fmap_compose so_name (λ n, Auth.id user +:+ "/" +:+ n)).
  apply NoDup_fmap_2; [|exact Hnd].
  intros a b Heq. apply String.app_inj in Heq. by apply String.app_inj in Heq.
Qed.

Lemma filter_paths_distinct (fs : list FileItem) p :
  NoDup (path <$> fs) → NoDup (path <$> filter (λ f, path f ≠ p) fs).
Proof.
  induction fs as [|f fs IH]; [done|].
  rewrite fmap_cons, NoDup_cons. intros [Hfresh Hnd].
  rewrite filter_cons. case_decide; [|by apply IH].
  rewrite fmap_cons. apply NoDup_cons. split; [|by apply IH].
  intros (g & Hp & Hg)%list_elem_of_fmap. apply Hfresh.
  apply list_elem_of_filter in Hg as [_ Hg]. rewrite Hp. by apply list_elem_of_fmap_2.
Qed.

(** X26: a successful delete by a handler whose render list is still the
    cached list, the paths being pairwise distinct and the deleted object an
    entry of the list: the entry is in no filtered view, whichever filter is
    active; the count of its category has gone down by one and every other
    count is what it was. *)
Theorem delete_updates_views
    (closure : list FileItem) (st : State) (file : FileItem) (active : ActiveCategory) :
  closure = files st →
  NoDup (path <$> files st) → file ∈ files st →
  let st' := commit st (Eff.trace (handleDelete closure file None)) in
  (∀ f, f ∈ filteredFiles (files st') active → path f ≠ path file)
  ∧ (file ∉ filteredFiles (files st') active)
  ∧ getCategoryCount (files st') (category file) + 1
      = getCategoryCount (files st) (category file)
  ∧ (∀ c, c ≠ category file →
       getCategoryCount (files st') c = getCategoryCount (files st) c).
Proof.
  intros -> Hnd Hin st'.
  assert (Hfiles : files st' = filter (λ f, path f ≠ path file) (files st))
    by reflexivity.
  rewrite Hfiles.
  assert (Hview : ∀ f, f ∈ filteredFiles (filter (λ f, path f ≠ path file) (files st)) active
                       → path f ≠ path file).
  { intros f. destruct active as [|c]; simpl.
    - by intros [? _]%list_elem_of_filter.
    - by intros [_ [? _]%list_elem_of_filter]%list_elem_of_filter. }
  split; [exact Hview|]. split; [|split].
  - intros Hf. by apply (Hview file Hf).
  - pose proof (count_after_removal (files st) file (category file) Hnd Hin) as Hc.
    rewrite decide_True in Hc by reflexivity. exact Hc.
  - intros c Hc.
    pose proof (count_after_removal (files st) file c Hnd Hin) as Hcount.
    rewrite decide_False in Hcount by congruence. lia.
Qed.

(** X26, on a cache of three files, one per category, deleting the image
    while the image filter is active. *)
Lemma delete_updates_views_witness :
  let doc := {| name := "a.pdf"; size := 10; created_at := "2024-01-03";
                path := "u1/a.pdf"; category := documentos |} in
  let img := {| name := "b.png"; size := 20; created_at := "2024-01-02";
                path := "u1/b.png"; category := imagenes |} in
  let vid := {| name := "c.mp4"; size := 30; created_at := "2024-01-01";
                path := "u1/c.mp4"; category := videos |} in
  let st := {| files := [doc; img; vid]; loading := false;
               activeCategory := only imagenes |} in
  let st' := commit st (Eff.trace (handleDelete (files st) img None)) in
  getCategoryCount (files st') imagenes + 1 = getCategoryCount (files st) imagenes
  ∧ getCategoryCount (files st') documentos = getCategoryCount (files st) documentos.
Proof.
  intros doc img vid st st'.
  destruct (delete_updates_views (files st) st img (only imagenes))
    as (_ & _ & Hown & Hothers).
  - reflexivity.
  - apply (bool_decide_unpack _). vm_compute. reflexivity.
  - cbn. right. left.
  - split; [exact Hown|]. apply Hothers. discriminate.
Defined.

(** C8 (witnessed defect): a document and an image deleted from one render,
    both accepted by the store.  When the answer to the image's delete
    arrives, the cached list has distinct paths and holds the image; the
    handler then writes its own render's list without the image, so the
    document, already deleted, is counted again (documents go from 0 to 1)
    and is back in the documents view. *)
Theorem stale_delete_raises_other_count :
  let a := {| name := "a.pdf"; size := 10; created_at := "2024-01-03";
              path := "u1/a.pdf"; category := documentos |} in
  let b := {| name := "b.png"; size := 20; created_at := "2024-01-02";
              path := "u1/b.png"; category := imagenes |} in
  let c := {| name := "c.mp4"; size := 30; created_at := "2024-01-01";
              path := "u1/c.mp4"; category := videos |} in
  let st := {| files := [a; b; c]; loading := false;
               activeCategory := only documentos |} in
  let st1 := commit st (Eff.trace (handleDelete (files st) a None)) in
  let st2 := deleteBoth st a b in
  NoDup (path <$> files st1) ∧ b ∈ files st1
  ∧ getCategoryCount (files st1) documentos = 0
  ∧ getCategoryCount (files st2) documentos = 1
  ∧ filteredFiles (files st2) (activeCategory st2) = [a].
Proof.
  intros a b c st st1 st2.
  split; [apply (bool_decide_unpack _); vm_compute; reflexivity|].
  split; [cbn; left|].
  repeat split; vm_compute; reflexivity.
Qed.

End Delete.

(** ** Credential vault: reveal-set *)

Section Reveal.
Import PasswordManager.

Lemma toggle_elem_of id j (s : gset string) :
  j ∈ toggle id s ↔ (j = id ∧ id ∉ s) ∨ (j ≠ id ∧ j ∈ s).
Proof.
  unfold toggle. destruct (decide (id ∈ s)), (decide (j = id)); set_solver.
Qed.

Lemma toggle_toggle id (s : gset string) : toggle id (toggle id s) = s.
Proof.
  apply set_eq. intros j. rewrite !toggle_elem_of.
  destruct (decide (j = id)) as [->|]; destruct (decide (id ∈ s)); naive_solver.
Qed.

(** C9: toggling an id twice gives the reveal-set back, and with it what
    every card shows; one toggle flips the membership of that id and of no
    other; the cached records, with their secrets and tokens, are the same
    before and after, and the toggle makes no remote call. *)
Theorem toggle_involution (st : State) (id : string) :
  let st1 := commit st (Eff.trace (togglePasswordVisibility id)) in
  let st2 := commit st1 (Eff.trace (togglePasswordVisibility id)) in
  visiblePasswords st2 = visiblePasswords st
  ∧ (id ∈ visiblePasswords st1 ↔ id ∉ visiblePasswords st)
  ∧ (∀ j, j ≠ id → j ∈ visiblePasswords st1 ↔ j ∈ visiblePasswords st)
  ∧ passwords st1 = passwords st
  ∧ passwords st2 = passwords st
  ∧ (∀ pwd, shown st2 pwd = shown st pwd)
  ∧ (∀ e, e ∈ Eff.trace (togglePasswordVisibility id) → is_remote e = false).
Proof.
  cbn zeta. unfold togglePasswordVisibility. cbn.
  split; [apply toggle_toggle|].
  split; [rewrite toggle_elem_of; naive_solver|].
  split; [intros j Hj; rewrite toggle_elem_of; naive_solver|].
  split; [reflexivity|]. split; [reflexivity|].
  split.
  - intros pwd. unfold shown. cbn. by rewrite toggle_toggle.
  - intros e He. apply list_elem_of_singleton in He as ->. reflexivity.
Qed.

End Reveal.

(** ** Credential vault: submission *)

Section Submission.
Import PasswordManager.

Lemma fetchPasswords_no_write w :
  writes (Eff.trace (fetchPasswords w)) = [] ∧ ∃ r, snd (fetchPasswords w) = inr r.
Proof.
  unfold fetchPasswords. destruct (select_answer w) as [e|data]; cbn; eauto.
Qed.

Lemma onSubmit_signed_out editing w data :
  getUser w = None →
  Eff.trace (onSubmit editing w data) =
    [AuthGetUser; Toast "Error" "Usuario no autenticado" destructive].
Proof. intros Hu. unfold onSubmit. rewrite Hu. reflexivity. Qed.

Lemma onSubmit_update_writes editing w u data :
  getUser w = Some u →
  writes (Eff.trace (onSubmit (Some editing) w data)) = [DbUpdate data (id editing)].
Proof.
  intros Hu. unfold onSubmit. rewrite Hu.
  destruct (fetchPasswords_no_write w) as [Hw [r Hr]].
  destruct (fetchPasswords w) as [t res] eqn:Hf. cbn in Hw, Hr. subst res.
  destruct (write_error w) as [e|]; cbn.
  - reflexivity.
  - by rewrite Hw.
Qed.

Lemma onSubmit_insert_writes w u data :
  getUser w = Some u →
  writes (Eff.trace (onSubmit None w data)) =
    [DbInsert {| row_platform_name := platform_name data;
                 row_username := username data;
                 row_password := password data;
                 row_description := JS.or_null (description data);
                 row_token := JS.or_null (token data);
                 row_user_id := Auth.id u |}].
Proof.
  intros Hu. unfold onSubmit. rewrite Hu.
  destruct (fetchPasswords_no_write w) as [Hw [r Hr]].
  destruct (fetchPasswords w) as [t res] eqn:Hf. cbn in Hw, Hr. subst res.
  destruct (write_error w) as [e|]; cbn.
  - reflexivity.
  - by rewrite Hw.
Qed.

(** C10: with a signed-in user, an update sends the form data to the record
    store as they are, so an empty description or token goes out as the empty
    string; a create sends the same data with an empty or absent description
    or token turned into null. *)
Theorem update_sends_fields_as_entered
    (editing : Password) (w : World) (u : User) (data : PasswordFormData) :
  getUser w = Some u →
  writes (Eff.trace (onSubmit (Some editing) w data)) = [DbUpdate data (id editing)]
  ∧ (∃ row, writes (Eff.trace (onSubmit None w data)) = [DbInsert row]
            ∧ row_description row = JS.or_null (description data)
            ∧ row_token row = JS.or_null (token data)
            ∧ (description data = Some "" → row_description row = None)
            ∧ (token data = Some "" → row_token row = None)).
Proof.
  intros Hu. split; [by eapply onSubmit_update_writes|].
  eexists. split; [by eapply onSubmit_insert_writes|].
  cbn. repeat split; by intros ->.
Qed.

(** C10, on an edit and a create that both leave the note and the token
    empty. *)
Lemma update_sends_fields_as_entered_witness :
  let u := {| Auth.id := "u1"; email := None |} in
  let w := {| getUser := Some u; write_error := None; select_answer := inr None |} in
  let data := {| platform_name := "Gmail"; username := "ana"; password := "s3cret";
                 description := Some ""; token := Some "" |} in
  let editing := {| form := data; id := "42"; created_at := "2024-01-01" |} in
  writes (Eff.trace (onSubmit (Some editing) w data)) = [DbUpdate data "42"].
Proof.
  intros u w data editing.
  apply (update_sends_fields_as_entered editing w u data). reflexivity.
Defined.

End Submission.

(** ** Credential vault: validation before submission *)

Section Validation.
Import PasswordManager.

(** The issues the schema reports for one field. *)
Lemma passwordSchema_field d f i :
  (f, i) ∈ passwordSchema d ↔
  i ∈ match f with
      | platform_name_f =>
          min 1 "El nombre de la plataforma es requerido" (platform_name d)
          ++ max 100 (platform_name d)
      | username_f => min 1 "El usuario es requerido" (username d) ++ max 255 (username d)
      | password_f => min 1 "La contraseña es requerida" (password d) ++ max 500 (password d)
      | description_f => optional (max 500) (description d)
      | token_f => optional (max 500) (token d)
      end.
Proof.
  unfold passwordSchema, at_field.
  rewrite !elem_of_app, !list_elem_of_fmap.
  destruct f; naive_solver.
Qed.

Lemma min_issue n msg s i : i ∈ min n msg s ↔ String.length s < n ∧ i = too_small n msg.
Proof.
  unfold min. destruct (Nat.ltb_spec (String.length s) n).
  - rewrite list_elem_of_singleton. tauto.
  - rewrite elem_of_nil. lia.
Qed.

Lemma max_issue n s i : i ∈ max n s ↔ n < String.length s ∧ i = too_big n.
Proof.
  unfold max. destruct (Nat.ltb_spec n (String.length s)).
  - rewrite list_elem_of_singleton. tauto.
  - rewrite elem_of_nil. lia.
Qed.

Lemma required_reports msg b s :
  (∃ i, i ∈ min 1 msg s ++ max b s) ↔
  ¬ ((true = true → 1 ≤ String.length s) ∧ String.length s ≤ b).
Proof.
  setoid_rewrite elem_of_app. setoid_rewrite min_issue. setoid_rewrite max_issue.
  split.
  - intros [i [[Hlt _]|[Hgt _]]] [Hmin Hmax]; [specialize (Hmin eq_refl)|]; lia.
  - intros Hnot. destruct (decide (String.length s < 1)) as [Hlt|Hge].
    + exists (too_small 1 msg). by left.
    + exists (too_big b). right. split; [|done].
      apply Nat.nle_gt. intros Hle. apply Hnot. split; [intros _|]; lia.
Qed.

Lemma optional_reports b x :
  (∃ i, i ∈ optional (max b) x) ↔
  ¬ match x with
    | None => True
    | Some s => (false = true → 1 ≤ String.length s) ∧ String.length s ≤ b
    end.
Proof.
  destruct x as [s|]; simpl.
  - setoid_rewrite max_issue. split.
    + intros [i [Hgt _]] [_ Hmax]. lia.
    + intros Hnot. exists (too_big b). split; [|done].
      apply Nat.nle_gt. intros Hle. apply Hnot. split; [discriminate|lia].
  - setoid_rewrite elem_of_nil. naive_solver.
Qed.

(** The schema reports an issue under a field exactly when the field breaks
    its constraint. *)
Lemma passwordSchema_reports d f :
  (∃ i, (f, i) ∈ passwordSchema d) ↔ ¬ field_ok d f.
Proof.
  setoid_rewrite passwordSchema_field. unfold field_ok.
  destruct f; cbn [value required bound];
    first [apply required_reports | apply optional_reports].
Qed.

Lemma passwordSchema_accepts d :
  passwordSchema d = [] ↔ ∀ f, field_ok d f.
Proof.
  split.
  - intros Hnil f. destruct (decide (field_ok d f)) as [|Hbad]; [done|].
    apply passwordSchema_reports in Hbad as [i Hi].
    rewrite Hnil in Hi. by apply elem_of_nil in Hi.
  - intros Hok. destruct (passwordSchema d) as [|[f i] l] eqn:Hs; [done|].
    exfalso. apply (proj1 (passwordSchema_reports d f)); [|apply Hok].
    exists i. rewrite Hs. left.
Qed.

Lemma fetchPasswords_sends_nothing w :
  sent (Eff.trace (fetchPasswords w)) = [] ∧ ∃ r, snd (fetchPasswords w) = inr r.
Proof.
  unfold fetchPasswords. destruct (select_answer w) as [e|data]; cbn; eauto.
Qed.

(** Whatever the services answer, [onSubmit] sends the store at most the
    data it was called with. *)
Lemma onSubmit_sent editing w data :
  sent (Eff.trace (onSubmit editing w data))
    ⊆ [(platform_name data, username data, password data)].
Proof.
  unfold onSubmit.
  destruct (fetchPasswords_sends_nothing w) as [Hsent [r Hr]].
  destruct (fetchPasswords w) as [t res]. cbn in Hsent, Hr. subst res.
  destruct (getUser w) as [u|]; [|cbn; set_solver].
  destruct editing as [editing|], (write_error w) as [e|]; cbn;
    rewrite ?Hsent; set_solver.
Qed.

Lemma handleSubmit_rejects onSubmit values :
  passwordSchema values ≠ [] →
  handleSubmit onSubmit values = Eff.emit (SetErrors (passwordSchema values)).
Proof. unfold handleSubmit. by destruct (passwordSchema values). Qed.

Lemma handleSubmit_accepts onSubmit values :
  passwordSchema values = [] → handleSubmit onSubmit values = onSubmit values.
Proof. unfold handleSubmit. by intros ->. Qed.

(** C3 (as the code has it): the schema runs before [onSubmit].  When a
    field breaks its constraint (a required field of length 0, or a field
    longer than its bound 100/255/500/500/500) the submission ends with the
    form's errors set, an issue recorded under that field, and no remote
    call; an empty platform name is reported with the schema's own message.
    Every record sent to the store has its required fields of length at
    least 1 and within their bounds.  The schema compares lengths of the
    strings as entered: nothing is trimmed. *)
Theorem submit_validates_first
    (editing : option Password) (w : World) (values : PasswordFormData) :
  let t := Eff.trace (submit editing w values) in
  (∀ f, ¬ field_ok values f →
     t = [SetErrors (passwordSchema values)]
     ∧ (∃ issue, (f, issue) ∈ passwordSchema values)
     ∧ List.filter is_remote t = [])
  ∧ (platform_name values = "" →
     (platform_name_f, too_small 1 "El nombre de la plataforma es requerido")
       ∈ passwordSchema values)
  ∧ (∀ p u s, (p, u, s) ∈ sent t →
       1 ≤ String.length p ≤ 100
       ∧ 1 ≤ String.length u ≤ 255
       ∧ 1 ≤ String.length s ≤ 500).
Proof.
  intros t. subst t. unfold submit. split; [|split].
  - intros f Hbad.
    pose proof (proj2 (passwordSchema_reports values f) Hbad) as [i Hi].
    rewrite handleSubmit_rejects by (intros Hnil; rewrite Hnil in Hi; by apply elem_of_nil in Hi).
    split; [reflexivity|]. split; [by exists i|reflexivity].
  - intros Hempty. apply passwordSchema_field.
    rewrite Hempty. apply elem_of_app. left. apply min_issue. cbn. split; [lia|done].
  - intros p u s Hsent.
    destruct (decide (passwordSchema values = [])) as [Hok|Hbad].
    + rewrite handleSubmit_accepts in Hsent by exact Hok.
      apply onSubmit_sent in Hsent. apply list_elem_of_singleton in Hsent.
      injection Hsent as -> -> ->.
      pose proof (proj1 (passwordSchema_accepts values) Hok) as Hfields.
      pose proof (Hfields platform_name_f) as [H1 H1'].
      pose proof (Hfields username_f) as [H2 H2'].
      pose proof (Hfields password_f) as [H3 H3'].
      cbn in *. specialize (H1 eq_refl). specialize (H2 eq_refl). specialize (H3 eq_refl).
      lia.
    + rewrite handleSubmit_rejects in Hsent by exact Hbad.
      cbn in Hsent. by apply elem_of_nil in Hsent.
Qed.

(** C3, on an input: a create with an empty platform name is stopped with
    the schema's message and no remote call. *)
Lemma submit_validates_first_witness :
  let w := {| getUser := Some {| Auth.id := "u1"; email := None |};
              write_error := None; select_answer := inr None |} in
  let values := {| platform_name := ""; username := "ana"; password := "s3cret";
                   description := None; token := None |} in
  Eff.trace (submit None w values) =
    [SetErrors [(platform_name_f, too_small 1 "El nombre de la plataforma es requerido")]]
  ∧ List.filter is_remote (Eff.trace (submit None w values)) = [].
Proof.
  intros w values.
  destruct (submit_validates_first None w values) as [Hreject _].
  destruct (Hreject platform_name_f) as (Ht & _ & Hremote).
  - cbn. lia.
  - split; [exact Ht|exact Hremote].
Defined.

(** C3 as worded fails: a platform name made of one space is empty after
    trimming, passes the schema, and is inserted as it is. *)
Lemma blank_platform_name_reaches_store :
  let w := {| getUser := Some {| Auth.id := "u1"; email := None |};
              write_error := None; select_answer := inr None |} in
  let values := {| platform_name := " "; username := "ana"; password := "s3cret";
                   description := None; token := None |} in
  JS.trim (platform_name values) = ""
  ∧ passwordSchema values = []
  ∧ writes (Eff.trace (submit None w values)) =
      [DbInsert {| row_platform_name := " "; row_username := "ana";
                   row_password := "s3cret"; row_description := None;
                   row_token := None; row_user_id := "u1" |}].
Proof. repeat split; reflexivity. Qed.

End Validation.

(** ** Session gate *)

Section Gate.
Import Dashboard.

Lemma run_snoc st evs ev : run st (evs ++ [ev]) = fst (step (run st evs) ev).
Proof. unfold run. by rewrite foldl_app. Qed.

(** What every reachable state of the page satisfies: the user is the one of
    the session last reported, and the page is loading exactly until the
    initial [getSession] has resolved. *)
Lemma gate_invariant evs :
  let st := run initial evs in
  user st = session_user <$> session st
  ∧ loading st = negb (resolved evs).
Proof.
  induction evs as [|ev evs [IHu IHl]] using rev_ind; [done|].
  cbn zeta. rewrite run_snoc. unfold resolved in *. rewrite existsb_app.
  destruct ev as [s|s|]; cbn.
  - split; [done|]. rewrite IHl. by rewrite orb_false_r.
  - split; [done|]. by rewrite orb_true_r.
  - split; [done|]. rewrite IHl. by rewrite orb_false_r.
Qed.

Lemma render_children st el :
  el ∈ children (render st) →
  loading st = false
  ∧ (el = PasswordManagerEl
     ∨ ∃ u, user st = Some u
            ∧ (el = FileUploadEl u true ∨ el = FileListEl u (fileRefreshTrigger st))).
Proof.
  unfold render. destruct (loading st); cbn; [by intros ?%elem_of_nil|].
  intros Hel. split; [done|].
  destruct (user st) as [u|]; cbn in Hel.
  - apply elem_of_cons in Hel as [->|Hel]; [by eauto|].
    apply elem_of_cons in Hel as [->|Hel]; [by eauto|].
    left. by apply list_elem_of_singleton in Hel.
  - left. by apply list_elem_of_singleton in Hel.
Qed.

(** C5: in every state the page reaches from its mount, whatever the auth
    listener and the initial [getSession] deliver and in whatever order: until
    [getSession] has resolved the page shows the loading spinner and nothing
    else; [FileUpload] and [FileList] are mounted only once loading is over
    and a user is set, they are given that user, and that user is the one of
    the current session; with no user, neither is mounted. *)
Theorem session_gate (evs : list Event) :
  let st := run initial evs in
  (resolved evs = false → render st = Spinner)
  ∧ (∀ el u, el ∈ children (render st) → principal el = Some u →
       resolved evs = true
       ∧ user st = Some u
       ∧ ∃ s, session st = Some s ∧ session_user s = u)
  ∧ (user st = None →
       ∀ el, el ∈ children (render st) → principal el = None).
Proof.
  intros st. destruct (gate_invariant evs) as [Hu Hl]. fold st in Hu, Hl.
  split; [|split].
  - intros Hpending. unfold render. rewrite Hl, Hpending. reflexivity.
  - intros el u [Hloaded Hel]%render_children Hp.
    rewrite Hloaded in Hl. split; [by destruct (resolved evs)|].
    destruct Hel as [->|(u' & Huser & [->| ->])]; [discriminate| |].
    + injection Hp as <-. split; [done|].
      rewrite Huser in Hu. destruct (session st) as [s|]; [|discriminate].
      exists s. split; [done|]. by injection Hu.
    + injection Hp as <-. split; [done|].
      rewrite Huser in Hu. destruct (session st) as [s|]; [|discriminate].
      exists s. split; [done|]. by injection Hu.
  - intros Hnone el [_ Hel]%render_children.
    destruct Hel as [->|(u & Huser & _)]; [done|congruence].
Qed.

(** C5, on a run: the listener reports a session before [getSession]
    resolves; the spinner stays until the resolution, then both components
    are mounted with the session's user. *)
Lemma session_gate_witness :
  let u := {| Auth.id := "u1"; email := Some "ana@example.org" |} in
  let s := {| session_user := u |} in
  render (run initial [AuthStateChange (Some s)]) = Spinner
  ∧ user (run initial [AuthStateChange (Some s); GetSessionResolved (Some s)]) = Some u.
Proof.
  intros u s. split.
  - apply (session_gate [AuthStateChange (Some s)]). reflexivity.
  - destruct (session_gate [AuthStateChange (Some s); GetSessionResolved (Some s)])
      as (_ & Hmounted & _).
    apply (Hmounted (FileUploadEl u true) u); [cbn; left|reflexivity].
Defined.

End Gate.

(** ** Upload coordinator *)

Section Upload.
Import FileUpload.

Lemma concat_imap_singleton {A B} (f : nat → A → B) (l : list A) :
  concat (imap (λ i x, [f i x]) l) = imap f l.
Proof.
  revert f. induction l as [|x l IH]; intros f; [reflexivity|].
  cbn. f_equal. apply (IH (f ∘ S)).
Qed.

Lemma promise_all_uploads user w files :
  Eff.promise_all (imap (upload user w) files) =
    (puts user w files, Eff.all_settled (answers w files)).
Proof.
  unfold Eff.promise_all, puts, answers. rewrite !fmap_imap. f_equal.
  - rewrite <- (concat_imap_singleton
                  (λ i file, StorageUpload (filePath user (now w i) file) file "3600" false)).
    f_equal. apply imap_ext.
    intros i f _. unfold upload. cbn. by destruct (upload_error w i).
  - f_equal. apply imap_ext.
    intros i f _. unfold upload. cbn. by destruct (upload_error w i).
Qed.

(** The traces [handleFiles] can leave. *)
Lemma handleFiles_empty user cb w : Eff.trace (handleFiles user cb [] w) = [].
Proof. reflexivity. Qed.

Lemma handleFiles_signed_out user cb files w :
  files ≠ [] → session w = None →
  Eff.trace (handleFiles user cb files w) =
    [SetIsUploading true; AuthGetSession;
     Toast "Error de autenticación" "Debes iniciar sesión para subir archivos." destructive;
     SetIsUploading false].
Proof.
  intros Hne Hs. unfold handleFiles. rewrite Hs.
  destruct files; [done|]. reflexivity.
Qed.

Lemma handleFiles_live user cb files w s :
  files ≠ [] → session w = Some s →
  Eff.trace (handleFiles user cb files w) =
    [SetIsUploading true; AuthGetSession] ++ puts user w files
    ++ match Eff.all_settled (answers w files) with
       | inl error => [Toast "Error al subir archivos" (failure_text error) destructive]
       | inr uploadedFiles =>
           Toast "Archivos subidos"
             (pretty (length uploadedFiles) +:+ " archivo(s) subido(s) exitosamente.")
             regular
           :: (if cb then [OnUploadComplete] else [])
       end
    ++ [SetIsUploading false].
Proof.
  intros Hne Hs. unfold handleFiles. rewrite Hs.
  destruct (decide (length files = 0)) as [Hlen|_];
    [by destruct files|].
  rewrite promise_all_uploads.
  destruct (Eff.all_settled (answers w files)) as [e|l]; cbn.
  - by rewrite <- !app_assoc.
  - destruct cb; cbn; by rewrite <- !app_assoc.
Qed.

Lemma imap_puts_are_puts (g : nat → File → string) files :
  Forall (λ e, is_put e = true)
    (imap (λ i file, StorageUpload (g i file) file "3600" false) files).
Proof.
  revert g. induction files as [|f files IH]; intros g; [constructor|].
  cbn. constructor; [done|]. exact (IH (λ i, g (S i))).
Qed.

Lemma puts_are_puts user w files : Forall (λ e, is_put e = true) (puts user w files).
Proof. apply imap_puts_are_puts. Qed.

Lemma keys_imap_puts (g : nat → File → string) files :
  keys (imap (λ i file, StorageUpload (g i file) file "3600" false) files) = imap g files.
Proof.
  revert g. induction files as [|f files IH]; intros g; [reflexivity|].
  cbn. f_equal. exact (IH (λ i, g (S i))).
Qed.

Lemma keys_puts user w files :
  keys (puts user w files) = imap (λ i file, filePath user (now w i) file) files.
Proof. apply keys_imap_puts. Qed.

(** C7: with no live session the handler stops at the check: it shows the
    authentication error and issues no put (for a non-empty batch the whole
    trace is the uploading flag, the session check, the toast, the flag
    reset); and a put in the trace means the check saw a live session. *)
Theorem upload_requires_session
    (user : User) (cb : bool) (files : list File) (w : World) :
  let t := Eff.trace (handleFiles user cb files w) in
  (session w = None →
     List.filter is_put t = []
     ∧ (files ≠ [] →
        t = [SetIsUploading true; AuthGetSession;
             Toast "Error de autenticación"
               "Debes iniciar sesión para subir archivos." destructive;
             SetIsUploading false]))
  ∧ (∀ e, e ∈ t → is_put e = true → ∃ s, session w = Some s).
Proof.
  intros t. subst t.
  assert (Hnone : session w = None →
                  List.filter is_put (Eff.trace (handleFiles user cb files w)) = []).
  { intros Hs. destruct files as [|f files]; [reflexivity|].
    by rewrite handleFiles_signed_out. }
  split.
  - intros Hs. split; [by apply Hnone|].
    intros Hne. by apply handleFiles_signed_out.
  - intros e He Hput. destruct (session w) as [s|]; [by exists s|].
    exfalso. specialize (Hnone eq_refl).
    assert (e ∈ List.filter is_put (Eff.trace (handleFiles user cb files w))) as Hin.
    { apply list_elem_of_In, filter_In. split; [by apply list_elem_of_In|done]. }
    rewrite Hnone in Hin. by apply elem_of_nil in Hin.
Qed.

(** C7, on a batch of one file with the session gone. *)
Lemma upload_requires_session_witness :
  let user := {| Auth.id := "u1"; email := None |} in
  let w := {| session := None; now := λ _, 1700000000000%N;
              upload_error := λ _, None |} in
  List.filter is_put
    (Eff.trace (handleFiles user true [{| name := "a.pdf"; bytes := "%PDF" |}] w)) = [].
Proof.
  intros user w.
  apply (upload_requires_session user true [{| name := "a.pdf"; bytes := "%PDF" |}] w).
  reflexivity.
Defined.

(** The joint answer of a batch: every put answered without error, or one
    of the errors. *)
Lemma all_settled_imap_ok (err : nat → option JsError) (files : list File) :
  (∀ i, i < length files → err i = None) →
  Eff.all_settled
    (imap (λ i file, match err i with
                     | Some error => inl error
                     | None => inr (name file)
                     end) files)
  = inr (name <$> files).
Proof.
  revert err. induction files as [|f files IH]; intros err Hok; [reflexivity|].
  cbn [imap]. unfold compose. cbn [Eff.all_settled]. rewrite (Hok 0) by (cbn; lia).
  rewrite (IH (λ i, err (S i))); [reflexivity|].
  intros i Hi. apply Hok. cbn. lia.
Qed.

Lemma all_settled_imap_failed (err : nat → option JsError) (files : list File) i e :
  i < length files → err i = Some e →
  ∃ i' e', i' < length files ∧ err i' = Some e' ∧
    Eff.all_settled
      (imap (λ i file, match err i with
                       | Some error => inl error
                       | None => inr (name file)
                       end) files)
    = inl e'.
Proof.
  revert err i. induction files as [|f files IH]; intros err i Hi He; [cbn in Hi; lia|].
  cbn [imap]. unfold compose. cbn [Eff.all_settled length].
  destruct (err 0) as [e0|] eqn:H0.
  - exists 0, e0. split; [lia|done].
  - destruct i as [|i]; [congruence|].
    destruct (IH (λ i, err (S i)) i) as (i' & e' & Hi' & He' & Hall);
      [cbn in Hi; lia|done|].
    exists (S i'), e'. split; [lia|]. split; [done|].
    by rewrite Hall.
Qed.

Lemma deliver_app st t1 t2 :
  Dashboard.deliver st (t1 ++ t2) = Dashboard.deliver (Dashboard.deliver st t1) t2.
Proof. unfold Dashboard.deliver, Dashboard.run. by rewrite omap_app, foldl_app. Qed.

Lemma deliver_puts st t :
  Forall (λ e, is_put e = true) t → Dashboard.deliver st t = st.
Proof.
  induction 1 as [|e t He _ IH]; [reflexivity|].
  change (e :: t) with ([e] ++ t). rewrite deliver_app.
  destruct e; try discriminate. exact IH.
Qed.

Lemma filter_notification_puts t :
  Forall (λ e, is_put e = true) t → List.filter is_notification t = [].
Proof.
  induction 1 as [|e t He _ IH]; [reflexivity|].
  cbn. rewrite IH. by destruct e.
Qed.

(** C2 (as the code has it): for a non-empty batch submitted under a live
    session, with the callback the page passes.  When every put succeeds the
    handler ends with the success toast, then the upload-completed callback,
    then the flag reset: one notification, after all the puts, and the page's
    refresh trigger goes up by one.  When a put fails the handler shows the
    failure toast and calls nothing back: the refresh trigger stays. *)
Theorem upload_notifies_after_success
    (user : User) (files : list File) (w : World) (s : Session) (st : Dashboard.State) :
  files ≠ [] → session w = Some s →
  let t := Eff.trace (handleFiles user true files w) in
  ((∀ i, i < length files → upload_error w i = None) →
     t = [SetIsUploading true; AuthGetSession] ++ puts user w files
         ++ [Toast "Archivos subidos"
               (pretty (length files) +:+ " archivo(s) subido(s) exitosamente.") regular;
             OnUploadComplete; SetIsUploading false]
     ∧ List.filter is_notification t = [OnUploadComplete]
     ∧ Dashboard.fileRefreshTrigger (Dashboard.deliver st t)
         = Dashboard.fileRefreshTrigger st + 1)
  ∧ (∀ i e, i < length files → upload_error w i = Some e →
     (∃ e', t = [SetIsUploading true; AuthGetSession] ++ puts user w files
                ++ [Toast "Error al subir archivos" (failure_text e') destructive;
                    SetIsUploading false])
     ∧ List.filter is_notification t = []
     ∧ Dashboard.deliver st t = st).
Proof.
  intros Hne Hs t. subst t. rewrite (handleFiles_live user true files w s Hne Hs).
  pose proof (puts_are_puts user w files) as Hputs.
  split.
  - intros Hok. unfold answers. rewrite all_settled_imap_ok by exact Hok.
    rewrite length_fmap. split; [reflexivity|]. split.
    + rewrite !List.filter_app, (filter_notification_puts _ Hputs). reflexivity.
    + rewrite !deliver_app, (deliver_puts _ _ Hputs). reflexivity.
  - intros i e Hi He. unfold answers.
    destruct (all_settled_imap_failed (upload_error w) files i e Hi He)
      as (i' & e' & _ & _ & ->).
    split; [by exists e'|]. split.
    + rewrite !List.filter_app, (filter_notification_puts _ Hputs). reflexivity.
    + rewrite !deliver_app, (deliver_puts _ _ Hputs). by destruct st.
Qed.

(** C2, on a batch of one file that the store accepts. *)
Lemma upload_notifies_after_success_witness :
  let user := {| Auth.id := "u1"; email := None |} in
  let w := {| session := Some {| session_user := user |};
              now := λ _, 1700000000000%N; upload_error := λ _, None |} in
  let t := Eff.trace (handleFiles user true [{| name := "a.pdf"; bytes := "%PDF" |}] w) in
  Dashboard.fileRefreshTrigger (Dashboard.deliver Dashboard.initial t) = 1.
Proof.
  intros user w t.
  destruct (upload_notifies_after_success user [{| name := "a.pdf"; bytes := "%PDF" |}] w
              {| session_user := user |} Dashboard.initial) as [Hok _];
    [discriminate|reflexivity|].
  destruct Hok as (_ & _ & Htrigger); [reflexivity|exact Htrigger].
Defined.

(** C2 as worded fails: a batch whose put was submitted and rejected gets the
    failure toast and no upload-completed notification; the page's refresh
    trigger does not move. *)
Lemma failed_upload_sends_no_notification :
  let user := {| Auth.id := "u1"; email := None |} in
  let w := {| session := Some {| session_user := user |};
              now := λ _, 1700000000000%N;
              upload_error := λ _, Some {| message := "Payload too large" |} |} in
  let file := {| name := "a.pdf"; bytes := "%PDF" |} in
  let t := Eff.trace (handleFiles user true [file] w) in
  t = [SetIsUploading true; AuthGetSession;
       StorageUpload "u1/1700000000000-a.pdf" file "3600" false;
       Toast "Error al subir archivos" "Payload too large" destructive;
       SetIsUploading false]
  ∧ (OnUploadComplete ∉ t)
  ∧ Dashboard.fileRefreshTrigger (Dashboard.deliver Dashboard.initial t) = 0.
Proof.
  intros user w file t. split; [reflexivity|]. split; [|reflexivity].
  subst t. vm_compute. intros Hin.
  repeat (apply elem_of_cons in Hin as [Hin|Hin]; [discriminate|]).
  by apply elem_of_nil in Hin.
Qed.

(** The clock reading is printed in decimal digits, so the first dash of
    the text after the slash ends it. *)
Lemma all_digits_app a b :
  JS.all_digits (a +:+ b) = JS.all_digits a && JS.all_digits b.
Proof.
  induction a as [|c a IH]; [reflexivity|].
  simpl. rewrite IH. by rewrite andb_assoc.
Qed.

Lemma append_snoc d c s : (d +:+ String c "") +:+ s = d +:+ String c s.
Proof.
  induction d as [|c' d IH]; [reflexivity|].
  change (String c' ((d +:+ String c "") +:+ s) = String c' (d +:+ String c s)).
  by rewrite IH.
Qed.

Lemma pretty_N_char_digit x : JS.is_digit (pretty_N_char x) = true.
Proof. unfold pretty_N_char. by repeat case_match. Qed.

Lemma pretty_N_go_digits x s :
  ∃ d, pretty_N_go x s = d +:+ s ∧ JS.all_digits d = true.
Proof.
  revert s. induction (N.lt_wf_0 x) as [x _ IH]; intros s.
  destruct (decide (x = 0)%N) as [->|Hx].
  - exists "". by rewrite pretty_N_go_0.
  - rewrite pretty_N_go_step by lia.
    destruct (IH (x `div` 10)%N) with (s := String (pretty_N_char (x `mod` 10)) s)
      as (d & -> & Hd); [apply N.div_lt; lia|].
    exists (d +:+ String (pretty_N_char (x `mod` 10)) "").
    rewrite append_snoc. split; [reflexivity|].
    rewrite all_digits_app, Hd. cbn. by rewrite pretty_N_char_digit.
Qed.

Lemma pretty_N_digits (x : N) : JS.all_digits (pretty x) = true.
Proof.
  unfold pretty, pretty_N. case_decide; [reflexivity|].
  destruct (pretty_N_go_digits x "") as (d & -> & Hd).
  by rewrite all_digits_app, Hd.
Qed.

Lemma digits_dash_inj d1 d2 r1 r2 :
  JS.all_digits d1 = true → JS.all_digits d2 = true →
  d1 +:+ "-" +:+ r1 = d2 +:+ "-" +:+ r2 → d1 = d2 ∧ r1 = r2.
Proof.
  revert d2. induction d1 as [|c d1 IH]; intros [|c' d2] H1 H2 Heq; cbn in *.
  - by injection Heq.
  - injection Heq as <- _. discriminate.
  - injection Heq as -> _. discriminate.
  - injection Heq as -> Heq.
    apply andb_true_iff in H1 as [_ H1]. apply andb_true_iff in H2 as [_ H2].
    destruct (IH d2 H1 H2 Heq) as [-> ->]. done.
Qed.

(** Two keys of one principal are equal exactly when they were made from the
    same clock reading and the same name. *)
Lemma filePath_inj user t1 t2 f1 f2 :
  filePath user t1 f1 = filePath user t2 f2 ↔ t1 = t2 ∧ name f1 = name f2.
Proof.
  unfold filePath. split; [|by intros [-> ->]].
  intros Heq. do 2 apply String.app_inj in Heq.
  apply digits_dash_inj in Heq as [Ht Hn]; [|apply pretty_N_digits..].
  split; [|done]. by apply (inj pretty) in Ht.
Qed.

Lemma handleFiles_keys user cb files w s :
  session w = Some s →
  keys (Eff.trace (handleFiles user cb files w))
    = imap (λ i file, filePath user (now w i) file) files.
Proof.
  intros Hs. destruct (decide (files = [])) as [->|Hne]; [reflexivity|].
  rewrite (handleFiles_live user cb files w s Hne Hs).
  unfold keys. rewrite !omap_app. fold (keys (puts user w files)).
  rewrite keys_puts. cbn [omap app].
  destruct (Eff.all_settled (answers w files)) as [e|l]; [|destruct cb];
    cbn; by rewrite app_nil_r.
Qed.

(** C1 (as the code has it): under a live session the puts of a batch carry,
    in order, the keys [{principal id}/{clock reading}-{original name}], the
    reading being the one taken while that file is mapped.  Two keys of the
    batch are equal exactly when both the readings and the names are equal;
    so the keys are pairwise distinct whenever any two files of the batch
    differ in name or were stamped with different readings. *)
Theorem upload_keys_distinct
    (user : User) (cb : bool) (files : list File) (w : World) (s : Session) :
  session w = Some s →
  let ks := keys (Eff.trace (handleFiles user cb files w)) in
  ks = imap (λ i file,
             Auth.id user +:+ "/" +:+ pretty (now w i) +:+ "-" +:+ name file) files
  ∧ (∀ i j fi fj ki kj,
       files !! i = Some fi → files !! j = Some fj →
       ks !! i = Some ki → ks !! j = Some kj →
       ki = kj ↔ now w i = now w j ∧ name fi = name fj)
  ∧ ((∀ i j fi fj, i ≠ j → files !! i = Some fi → files !! j = Some fj →
        now w i ≠ now w j ∨ name fi ≠ name fj) →
     NoDup ks).
Proof.
  intros Hs ks. subst ks. rewrite (handleFiles_keys user cb files w s Hs).
  assert (Hpair : ∀ i j fi fj ki kj,
             files !! i = Some fi → files !! j = Some fj →
             imap (λ i file, filePath user (now w i) file) files !! i = Some ki →
             imap (λ i file, filePath user (now w i) file) files !! j = Some kj →
             ki = kj ↔ now w i = now w j ∧ name fi = name fj).
  { intros i j fi fj ki kj Hi Hj. rewrite !list_lookup_imap, Hi, Hj. cbn.
    intros [= <-] [= <-]. apply filePath_inj. }
  split; [reflexivity|]. split; [exact Hpair|].
  intros Hdiff. apply NoDup_alt. intros i j k Hi Hj.
  destruct (decide (i = j)) as [|Hne]; [done|exfalso].
  pose proof Hi as Hi'. pose proof Hj as Hj'.
  rewrite list_lookup_imap in Hi'. rewrite list_lookup_imap in Hj'.
  destruct (files !! i) as [fi|] eqn:Hfi; [|discriminate].
  destruct (files !! j) as [fj|] eqn:Hfj; [|discriminate].
  destruct (proj1 (Hpair i j fi fj k k Hfi Hfj Hi Hj) eq_refl) as [Hnow Hname].
  destruct (Hdiff i j fi fj Hne Hfi Hfj); contradiction.
Qed.

(** C1, on a batch of two files of the same name stamped one millisecond
    apart. *)
Lemma upload_keys_distinct_witness :
  let user := {| Auth.id := "u1"; email := None |} in
  let w := {| session := Some {| session_user := user |};
              now := λ i, (1700000000000 + N.of_nat i)%N;
              upload_error := λ _, None |} in
  let file := {| name := "a.pdf"; bytes := "%PDF" |} in
  NoDup (keys (Eff.trace (handleFiles user true [file; file] w))).
Proof.
  intros user w file.
  destruct (upload_keys_distinct user true [file; file] w {| session_user := user |})
    as (_ & _ & Hdistinct); [reflexivity|].
  apply Hdistinct. intros i j fi fj Hne Hi Hj. left.
  destruct i as [|[|i]], j as [|[|j]]; try discriminate; try done; cbn; lia.
Defined.

(** C1 as worded fails: two files of the same name mapped within one
    millisecond get the same key. *)
Lemma same_millisecond_keys_collide :
  let user := {| Auth.id := "u1"; email := None |} in
  let w := {| session := Some {| session_user := user |};
              now := λ _, 1700000000000%N;
              upload_error := λ _, None |} in
  let file := {| name := "a.pdf"; bytes := "%PDF" |} in
  keys (Eff.trace (handleFiles user true [file; file] w))
    = ["u1/1700000000000-a.pdf"; "u1/1700000000000-a.pdf"]
  ∧ ¬ NoDup (keys (Eff.trace (handleFiles user true [file; file] w))).
Proof.
  intros user w file.
  assert (Hkeys : keys (Eff.trace (handleFiles user true [file; file] w))
                  = ["u1/1700000000000-a.pdf"; "u1/1700000000000-a.pdf"])
    by (vm_compute; reflexivity).
  split; [exact Hkeys|]. rewrite Hkeys. intros Hnd.
  apply NoDup_cons in Hnd as [Hfresh _]. apply Hfresh. left.
Qed.

End Upload.

(** * Part III: further properties of the components *)

(** ** File catalog: icons, counts, loading, the cached list over time *)

Section Catalog.
Import FileList.

(** X1: the icon and the category of a name agree on images and videos: the
    image icon goes with exactly the names filed under images, the video icon
    with exactly those under videos; every other icon (music, text, plain
    file) is a name filed under documents. *)
Theorem icon_agrees_with_category (fileName : string) :
  (getFileIcon fileName = ImageIcon ↔ getFileCategory fileName = imagenes)
  ∧ (getFileIcon fileName = VideoIcon ↔ getFileCategory fileName = videos)
  ∧ (getFileIcon fileName = MusicIcon ∨ getFileIcon fileName = FileTextIcon
     ∨ getFileIcon fileName = FileIcon ↔ getFileCategory fileName = documentos).
Proof.
  unfold getFileIcon, getFileCategory, imageExtensions, videoExtensions.
  generalize (JS.or_empty (extension fileName)). intros ext.
  destruct (JS.includes ["jpg"; "jpeg"; "png"; "gif"; "webp"; "svg"; "bmp"; "ico"] ext);
    [repeat split; (discriminate || tauto || (intros [|[|]]; discriminate))|].
  destruct (JS.includes ["mp4"; "avi"; "mov"; "mkv"; "wmv"; "flv"; "webm"; "m4v"] ext);
    [repeat split; (discriminate || tauto || (intros [|[|]]; discriminate))|].
  destruct (JS.includes ["mp3"; "wav"; "ogg"; "m4a"] ext),
    (JS.includes ["pdf"; "doc"; "docx"; "txt"; "xls"; "xlsx"; "ppt"; "pptx"] ext),
    (JS.includes documentExtensions ext);
    repeat split; (discriminate || tauto).
Qed.

(** X2: the three category counts add up to the size of the cached list,
    and the view under a category tab has as many entries as that
    category's count. *)
Theorem category_counts_partition (fs : list FileItem) :
  getCategoryCount fs documentos + getCategoryCount fs imagenes
    + getCategoryCount fs videos = length fs
  ∧ (∀ c, length (filteredFiles fs (only c)) = getCategoryCount fs c)
  ∧ length (filteredFiles fs todos) = length fs.
Proof.
  split; [|split; [reflexivity|reflexivity]].
  induction fs as [|f fs IH]; [reflexivity|].
  rewrite !getCategoryCount_cons. cbn [length]. rewrite <- IH.
  destruct (category f) eqn:Hc; repeat case_decide; try congruence; lia.
Qed.

(** X3: a load makes one remote call, the listing of the user's folder, and
    ends with the loading flag off whatever the store answers.  On an error
    the cached list is kept and the error toast shown; on success the cached
    list becomes the listing, entry by entry and in the store's order, an
    absent listing counting as empty.  Nothing is thrown to the caller. *)
Theorem loadFiles_outcomes
    (user : User) (answer : JsError + option (list StorageObject)) (st : State) :
  let t := Eff.trace (loadFiles user answer) in
  loading (commit st t) = false
  ∧ List.filter is_remote t = [StorageList (Auth.id user)]
  ∧ snd (loadFiles user answer) = inr ()
  ∧ match answer with
    | inl _ =>
        files (commit st t) = files st
        ∧ Toast "Error" "No se pudieron cargar los archivos." destructive ∈ t
    | inr data =>
        files (commit st t) = toFileItem user <$> default [] data
        ∧ length (files (commit st t)) = length (default [] data)
    end.
Proof.
  destruct answer as [e|data]; cbn.
  - repeat split; try reflexivity. set_solver.
  - repeat split; try reflexivity. by rewrite length_fmap.
Qed.

Lemma session_snoc user actions a :
  session user (actions ++ [a]) = act user (session user actions) a.
Proof. unfold session. by rewrite foldl_app. Qed.

Lemma handleOpenFile_no_setter file answer st :
  commit st (Eff.trace (handleOpenFile file answer)) = st.
Proof.
  unfold handleOpenFile.
  destruct answer as [e|[url|]]; [reflexivity| |reflexivity].
  cbn. destruct (decide (url = "")); reflexivity.
Qed.

(** X4: whatever sequence of loads, deletes, opens and tab changes a mounted
    list goes through, as long as the store never lists two objects of the
    folder under one name: the cached paths stay pairwise distinct, every
    cached entry has the path [{user id}/{name}] and the category that
    [getFileCategory] gives its name. *)
Theorem catalog_invariant (user : User) (actions : list Action) :
  Forall well_listed actions →
  let st := session user actions in
  NoDup (path <$> files st)
  ∧ (∀ f, f ∈ files st →
       path f = Auth.id user +:+ "/" +:+ name f
       ∧ category f = getFileCategory (name f)).
Proof.
  induction actions as [|a actions IH] using rev_ind; intros Hwf st.
  - split; [constructor|]. intros f Hf. by apply elem_of_nil in Hf.
  - apply Forall_app in Hwf as [Hwf Ha]. rewrite Forall_singleton in Ha.
    destruct (IH Hwf) as [IHnd IHitems]. subst st. rewrite session_snoc.
    set (st := session user actions) in *.
    destruct a as [[e|data]|file [e|]|file answer|c]; cbn [act].
    + split; [exact IHnd|exact IHitems].
    + cbn. split.
      * destruct data as [data|]; [by apply toFileItem_paths_distinct|constructor].
      * intros f (o & -> & _)%list_elem_of_fmap. done.
    + split; [exact IHnd|exact IHitems].
    + cbn. split; [by apply filter_paths_distinct|].
      intros f [_ Hf]%list_elem_of_filter. by apply IHitems.
    + rewrite handleOpenFile_no_setter. split; [exact IHnd|exact IHitems].
    + split; [exact IHnd|exact IHitems].
Qed.

(** X4, on a mounted list that loads two objects and deletes one. *)
Lemma catalog_invariant_witness :
  let user := {| Auth.id := "u1"; email := None |} in
  let data := [ {| so_name := "1700000000001-b.png"; so_size := Some 20%N;
                   so_created_at := "2024-01-02" |};
                {| so_name := "1700000000000-a.pdf"; so_size := None;
                   so_created_at := "2024-01-01" |} ] in
  let actions := [Load (inr (Some data));
                  Delete (toFileItem user {| so_name := "1700000000001-b.png";
                                             so_size := Some 20%N;
                                             so_created_at := "2024-01-02" |}) None] in
  NoDup (path <$> files (session user actions)).
Proof.
  intros user data actions.
  apply (catalog_invariant user actions).
  repeat constructor; cbn; set_solver.
Defined.

End Catalog.

(** ** File catalog: deletes, opening and downloading *)

Section CatalogActions.
Import FileList.

Lemma filter_path_comm (fs : list FileItem) p q :
  filter (λ f, path f ≠ p) (filter (λ f, path f ≠ q) fs)
  = filter (λ f, path f ≠ q) (filter (λ f, path f ≠ p) fs).
Proof.
  rewrite !list_filter_filter. apply list_filter_iff. intros f. tauto.
Qed.

(** X5: successful deletes, each made from the render that follows the one
    before, can be done in either order with the same cached list at the end;
    deleting the same entry a second time changes nothing; deleting an entry
    whose path is not cached changes nothing. *)
Theorem deletes_compose (user : User) (st : State) (a b : FileItem) :
  act user (act user st (Delete a None)) (Delete b None)
    = act user (act user st (Delete b None)) (Delete a None)
  ∧ act user (act user st (Delete a None)) (Delete a None)
    = act user st (Delete a None)
  ∧ (path a ∉ path <$> files st → files (act user st (Delete a None)) = files st).
Proof.
  cbn. split; [|split].
  - by rewrite filter_path_comm.
  - f_equal. apply list_filter_filter_l. tauto.
  - apply filter_absent_path.
Qed.

(** X6: after a successful delete by a handler whose render list is still
    the cached list, the paths being pairwise distinct and the deleted object
    an entry of the list, the cached list is one entry shorter and what is
    left keeps its order. *)
Theorem delete_shortens_by_one (closure : list FileItem) (st : State) (file : FileItem) :
  closure = files st →
  NoDup (path <$> files st) → file ∈ files st →
  let st' := commit st (Eff.trace (handleDelete closure file None)) in
  length (files st') + 1 = length (files st)
  ∧ files st' `sublist_of` files st.
Proof.
  intros -> Hnd Hin st'.
  assert (Hfiles : files st' = filter (λ f, path f ≠ path file) (files st))
    by reflexivity.
  rewrite Hfiles. split; [|apply sublist_filter].
  clear st' Hfiles. induction (files st) as [|f fs IH]; [by apply elem_of_nil in Hin|].
  rewrite fmap_cons in Hnd. apply NoDup_cons in Hnd as [Hfresh Hnd].
  apply elem_of_cons in Hin as [->|Hin].
  - rewrite filter_cons_False by (intros Hne; by apply Hne).
    rewrite filter_absent_path by exact Hfresh. cbn. lia.
  - assert (path f ≠ path file) as Hne.
    { intros Heq. apply Hfresh. rewrite Heq. by apply list_elem_of_fmap_2. }
    rewrite filter_cons_True by exact Hne. cbn. specialize (IH Hnd Hin). lia.
Qed.

(** X6, on a cache of two entries. *)
Lemma delete_shortens_by_one_witness :
  let doc := {| name := "a.pdf"; size := 10; created_at := "2024-01-03";
                path := "u1/a.pdf"; category := documentos |} in
  let img := {| name := "b.png"; size := 20; created_at := "2024-01-02";
                path := "u1/b.png"; category := imagenes |} in
  let st := {| files := [doc; img]; loading := false; activeCategory := todos |} in
  length (files (commit st (Eff.trace (handleDelete (files st) doc None)))) + 1 = 2.
Proof.
  intros doc img st.
  apply (delete_shortens_by_one (files st) st doc).
  - reflexivity.
  - apply (bool_decide_unpack _). vm_compute. reflexivity.
  - cbn. left.
Defined.

(** X7: opening a file asks the store for one signed address of the file's
    path, valid 3600 seconds, and changes nothing in the component's state.
    A window is opened exactly when the store answers without error with a
    non-empty address, and then on that address; the error toast is shown
    exactly when the store answers with an error. *)
Theorem handleOpenFile_outcomes
    (file : FileItem) (answer : JsError + option string) (st : State) :
  let t := Eff.trace (handleOpenFile file answer) in
  commit st t = st
  ∧ List.filter is_remote t = [StorageCreateSignedUrl (path file) 3600]
  ∧ (∀ url, WindowOpen url ∈ t ↔ answer = inr (Some url) ∧ url ≠ "")
  ∧ (Toast "Error" "No se pudo abrir el archivo." destructive ∈ t
     ↔ ∃ e, answer = inl e).
Proof.
  unfold handleOpenFile.
  destruct answer as [e|[u|]]; cbn; [| destruct (decide (u = "")) as [->|Hu]; cbn |].
  all: split; [reflexivity|]; split; [reflexivity|]; split.
  all: try (intros url; split; [intros Hin|intros [Heq Hne]]).
  all: try (split; [intros Hin|intros [e' He']]).
  all: repeat match goal with
         | H : _ ∈ _ :: _ |- _ => apply elem_of_cons in H as [H|H]
         | H : _ ∈ [] |- _ => by apply elem_of_nil in H
         end;
       try discriminate; try congruence; eauto.
  - set_solver.
  - injection Hin as ->. done.
  - injection Heq as ->. set_solver.
Qed.

End CatalogActions.

Section Downloading.
Import FileDownload.

(** X8: a download asks the store for the bytes of the file's path.  When
    the store answers with an error nothing is created in the document and
    the error toast is shown.  When it answers with the bytes, one address is
    minted for them, the anchor is clicked on that address with the cached
    name as the saved name, and the address is revoked after the click and
    before the toast.  In both cases the cached list is not touched. *)
Theorem handleDownload_outcomes
    (file : FileList.FileItem) (answer : JsError + string) (url : string)
    (st : FileList.State) :
  let t := Eff.trace (handleDownload file answer url) in
  FileList.commit st (catalog t) = st
  ∧ snd (handleDownload file answer url) = inr ()
  ∧ match answer with
    | inl _ =>
        t = [StorageDownload (FileList.path file);
             Catalog (FileList.Toast "Error" "No se pudo descargar el archivo."
                        destructive)]
    | inr data =>
        ∃ before after,
          t = StorageDownload (FileList.path file) :: CreateObjectURL data :: before
              ++ AnchorClick url (FileList.name file) :: after
          ∧ RevokeObjectURL url ∈ after
          ∧ (∀ e, e ∈ before → e = AppendAnchor)
    end.
Proof.
  destruct answer as [e|data]; cbn.
  - repeat split; reflexivity.
  - split; [reflexivity|]. split; [reflexivity|].
    exists [AppendAnchor], [RemoveAnchor; RevokeObjectURL url;
                            Catalog (FileList.Toast "Descarga iniciada"
                                       ("Descargando " +:+ FileList.name file) regular)].
    split; [reflexivity|]. split; [set_solver|].
    intros e' He'. by apply list_elem_of_singleton in He'.
Qed.

End Downloading.

(** ** Upload coordinator: the uploading flag, the puts, the failure report *)

Section UploadMore.
Import FileUpload.

Lemma puts_no_flag user w files : List.filter is_flag (puts user w files) = [].
Proof.
  pose proof (puts_are_puts user w files) as Hputs.
  induction Hputs as [|e t He _ IH]; [reflexivity|].
  cbn. rewrite IH. by destruct e.
Qed.

(** X9: an empty batch does nothing at all, not even the session check.  A
    non-empty batch raises the uploading flag first and lowers it last, once
    each, whether the session is missing, the puts succeed or a put fails;
    and the handler throws nothing to its caller. *)
Theorem handleFiles_brackets_flag
    (user : User) (cb : bool) (files : list File) (w : World) :
  let t := Eff.trace (handleFiles user cb files w) in
  snd (handleFiles user cb files w) = inr ()
  ∧ (files = [] → t = [])
  ∧ (files ≠ [] →
     ∃ body, t = SetIsUploading true :: body ++ [SetIsUploading false]
             ∧ List.filter is_flag body = []).
Proof.
  split; [|split].
  - unfold handleFiles. destruct (decide (length files = 0)); [reflexivity|].
    destruct (session w) as [s|]; [|reflexivity].
    rewrite promise_all_uploads.
    destruct (Eff.all_settled (answers w files)); [reflexivity|].
    by destruct cb.
  - intros ->. reflexivity.
  - intros Hne. destruct (session w) as [s|] eqn:Hs.
    + cbn zeta. rewrite (handleFiles_live user cb files w s Hne Hs).
      eexists (AuthGetSession :: puts user w files ++ _).
      split.
      * cbn. f_equal. f_equal. rewrite <- app_assoc. reflexivity.
      * cbn. rewrite List.filter_app, puts_no_flag.
        destruct (Eff.all_settled (answers w files)); [reflexivity|].
        by destruct cb.
    + cbn zeta. rewrite (handleFiles_signed_out user cb files w Hne Hs).
      by eexists [_; _].
Qed.

(** X9, on a batch of one file. *)
Lemma handleFiles_brackets_flag_witness :
  let user := {| Auth.id := "u1"; email := None |} in
  let w := {| session := None; now := λ _, 1700000000000%N;
              upload_error := λ _, None |} in
  ∃ body,
    Eff.trace (handleFiles user true [{| name := "a.pdf"; bytes := "%PDF" |}] w)
      = SetIsUploading true :: body ++ [SetIsUploading false]
    ∧ List.filter is_flag body = [].
Proof.
  intros user w.
  apply (handleFiles_brackets_flag user true [{| name := "a.pdf"; bytes := "%PDF" |}] w).
  discriminate.
Defined.

Lemma filter_put_puts t : Forall (λ e, is_put e = true) t → List.filter is_put t = t.
Proof.
  induction 1 as [|e t He _ IH]; [reflexivity|]. cbn. by rewrite He, IH.
Qed.

(** X10: under a live session every file of the batch is put, in batch
    order, each once, with overwriting off and the cache hint 3600, whatever
    the store answers to the others: a rejected put does not keep the later
    files from being sent. *)
Theorem handleFiles_issues_every_put
    (user : User) (cb : bool) (files : list File) (w : World) (s : Session) :
  session w = Some s →
  let sent := List.filter is_put (Eff.trace (handleFiles user cb files w)) in
  length sent = length files
  ∧ (∀ i file, files !! i = Some file →
       sent !! i = Some (StorageUpload (filePath user (now w i) file) file "3600" false)).
Proof.
  intros Hs sent.
  assert (Hsent : sent = puts user w files).
  { subst sent. destruct (decide (files = [])) as [->|Hne]; [reflexivity|].
    rewrite (handleFiles_live user cb files w s Hne Hs).
    rewrite !List.filter_app, (filter_put_puts _ (puts_are_puts user w files)).
    destruct (Eff.all_settled (answers w files)); [|destruct cb]; cbn;
      by rewrite app_nil_r. }
  rewrite Hsent. unfold puts. split; [by rewrite length_imap|].
  intros i file Hi. by rewrite list_lookup_imap, Hi.
Qed.

(** X10, on a batch of two files whose first put is rejected. *)
Lemma handleFiles_issues_every_put_witness :
  let user := {| Auth.id := "u1"; email := None |} in
  let w := {| session := Some {| session_user := user |};
              now := λ _, 1700000000000%N;
              upload_error := λ i, if decide (i = 0)
                                   then Some {| message := "Payload too large" |}
                                   else None |} in
  let files := [{| name := "a.pdf"; bytes := "%PDF" |};
                {| name := "b.png"; bytes := "PNG" |}] in
  length (List.filter is_put (Eff.trace (handleFiles user true files w))) = 2.
Proof.
  intros user w files.
  apply (handleFiles_issues_every_put user true files w {| session_user := user |}).
  reflexivity.
Defined.

(** X11: when a put of the batch is rejected, the one toast of the run is
    the failure toast, and its text is the message of a put of this batch
    that was rejected (the fixed text when that message is empty); no
    success toast is shown although other puts may have succeeded. *)
Theorem handleFiles_reports_a_rejected_put
    (user : User) (cb : bool) (files : list File) (w : World) (s : Session)
    (i : nat) (e : JsError) :
  session w = Some s → i < length files → upload_error w i = Some e →
  let t := Eff.trace (handleFiles user cb files w) in
  ∃ j e', j < length files ∧ upload_error w j = Some e'
    ∧ omap (λ x, match x with Toast a b c => Some (a, b, c) | _ => None end) t
      = [("Error al subir archivos", failure_text e', destructive)].
Proof.
  intros Hs Hi He t. subst t.
  assert (Hne : files ≠ []) by (intros ->; cbn in Hi; lia).
  rewrite (handleFiles_live user cb files w s Hne Hs).
  destruct (all_settled_imap_failed (upload_error w) files i e Hi He)
    as (j & e' & Hj & He' & Hall).
  exists j, e'. split; [exact Hj|]. split; [exact He'|].
  unfold answers. rewrite Hall. rewrite !omap_app.
  assert (Hputs : omap (λ x, match x with
                             | Toast a b c => Some (a, b, c)
                             | _ => None
                             end) (puts user w files) = []).
  { pose proof (puts_are_puts user w files) as Hp.
    induction Hp as [|x l Hx _ IH]; [reflexivity|].
    cbn. rewrite IH. by destruct x. }
  rewrite Hputs. reflexivity.
Qed.

(** X11, on a batch of one rejected file. *)
Lemma handleFiles_reports_a_rejected_put_witness :
  let user := {| Auth.id := "u1"; email := None |} in
  let w := {| session := Some {| session_user := user |};
              now := λ _, 1700000000000%N;
              upload_error := λ _, Some {| message := "" |} |} in
  ∃ j e', j < 1 ∧ upload_error w j = Some e'
    ∧ omap (λ x, match x with Toast a b c => Some (a, b, c) | _ => None end)
        (Eff.trace (handleFiles user true [{| name := "a.pdf"; bytes := "%PDF" |}] w))
      = [("Error al subir archivos", failure_text e', destructive)].
Proof.
  intros user w.
  apply (handleFiles_reports_a_rejected_put user true
           [{| name := "a.pdf"; bytes := "%PDF" |}] w {| session_user := user |}
           0 {| message := "" |}).
  - reflexivity.
  - cbn. lia.
  - reflexivity.
Defined.

End UploadMore.

(** ** From the upload to the list *)

Section UploadToList.

Lemma contains_dot_two_segments s :
  JS.contains "." s = true → ∃ a b l, JS.split "." s = a :: b :: l.
Proof.
  induction s as [|c s IH]; [discriminate|]. simpl.
  destruct (Ascii.eqb c ".") eqn:Hc; simpl.
  - intros _. destruct (JS.split "." s) as [|b l] eqn:Hs;
      [by apply split_nonempty in Hs|eauto].
  - intros Hs. destruct (IH Hs) as (a & b & l & ->). eauto.
Qed.

(** A prefix does not change the last segment of a text that has a dot. *)
Lemma last_split_prefix p s :
  JS.contains "." s = true →
  last (JS.split "." (p +:+ s)) = last (JS.split "." s).
Proof.
  intros Hs. induction p as [|c p IH]; [reflexivity|].
  change (String c p +:+ s) with (String c (p +:+ s)). simpl.
  assert (JS.contains "." (p +:+ s) = true) as Hps
    by (rewrite contains_append, Hs; apply orb_true_r).
  destruct (contains_dot_two_segments _ Hps) as (a & b & l & Hsplit).
  rewrite Hsplit in IH |- *. by destruct (Ascii.eqb c ".").
Qed.

(** X12: an object stored under the key the upload makes is listed back with
    that key as its path.  When the original name has a dot, the listed entry
    has the category of the original name, the stamp in front changing
    nothing; when it has none, the entry is filed under documents. *)
Theorem uploaded_file_is_listed_alike
    (user : User) (stamp : N) (file : FileUpload.File)
    (size : option N) (created : string) :
  let entry :=
    FileList.toFileItem user
      {| FileList.so_name := pretty stamp +:+ "-" +:+ FileUpload.name file;
         FileList.so_size := size; FileList.so_created_at := created |} in
  FileList.path entry = FileUpload.filePath user stamp file
  ∧ (JS.contains "." (FileUpload.name file) = true →
       FileList.category entry = FileList.getFileCategory (FileUpload.name file))
  ∧ (JS.contains "." (FileUpload.name file) = false →
       FileList.category entry = FileList.documentos).
Proof.
  cbn. split; [reflexivity|]. split.
  - intros Hdot. apply getFileCategory_same_extension.
    unfold FileList.extension, JS.pop. f_equal.
    change (pretty stamp +:+ "-" +:+ FileUpload.name file)
      with (pretty stamp +:+ String "-" (FileUpload.name file)).
    rewrite <- append_snoc. by apply last_split_prefix.
  - intros Hdot. apply getFileCategory_stored_dotless; [apply pretty_N_digits|done].
Qed.

(** X12, on a photo. *)
Lemma uploaded_file_is_listed_alike_witness :
  FileList.category
    (FileList.toFileItem {| Auth.id := "u1"; email := None |}
       {| FileList.so_name := pretty 1700000000000%N +:+ "-" +:+ "playa.JPG";
          FileList.so_size := None; FileList.so_created_at := "2024-01-01" |})
  = FileList.getFileCategory "playa.JPG".
Proof.
  apply (uploaded_file_is_listed_alike {| Auth.id := "u1"; email := None |}
           1700000000000%N {| FileUpload.name := "playa.JPG"; FileUpload.bytes := "" |}
           None "2024-01-01").
  reflexivity.
Defined.

End UploadToList.

(** ** Session gate: the refresh trigger, the reports, the redirects *)

Section GateMore.
Import Dashboard.

Lemma run_cons st ev evs : run st (ev :: evs) = run (fst (step st ev)) evs.
Proof. reflexivity. Qed.

(** X13: the refresh trigger counts the upload-completed callbacks and
    nothing else: after any run it has grown by the number of callbacks
    received, and session reports leave it alone. *)
Theorem refresh_trigger_counts_uploads (st : State) (evs : list Event) :
  fileRefreshTrigger (run st evs)
    = fileRefreshTrigger st + length (List.filter is_upload_complete evs).
Proof.
  revert st. induction evs as [|ev evs IH]; intros st.
  - cbn. lia.
  - rewrite run_cons, IH. destruct ev; cbn; lia.
Qed.

(** X14: the page follows the latest session report, whichever of the
    listener and the initial [getSession] made it: after any run the session
    is the one last reported (none before any report) and the user is that
    session's user; so a [getSession] that resolves late with no session
    overrides a session the listener reported before it.  The loading flag,
    once off, stays off. *)
Theorem latest_report_decides (evs : list Event) :
  let st := run initial evs in
  session st = default None (last (omap reported evs))
  ∧ user st = session_user <$> default None (last (omap reported evs))
  ∧ (∀ more, loading st = false → loading (run st more) = false).
Proof.
  cbn zeta. split; [|split].
  - induction evs as [|ev evs IH] using rev_ind; [reflexivity|].
    rewrite run_snoc, omap_app. destruct ev as [s|s|]; cbn.
    + by rewrite last_snoc.
    + by rewrite last_snoc.
    + by rewrite app_nil_r.
  - induction evs as [|ev evs IH] using rev_ind; [reflexivity|].
    rewrite run_snoc, omap_app. destruct ev as [s|s|]; cbn.
    + by rewrite last_snoc.
    + by rewrite last_snoc.
    + by rewrite app_nil_r.
  - generalize (run initial evs). intros st more. revert st.
    induction more as [|ev more IH]; intros st Hst; [exact Hst|].
    rewrite run_cons. apply IH. by destruct ev.
Qed.

(** X14, on a run where the listener reports a session and [getSession]
    then resolves with none. *)
Lemma latest_report_decides_witness :
  let s := {| session_user := {| Auth.id := "u1"; email := None |} |} in
  let evs := [AuthStateChange (Some s); GetSessionResolved None] in
  user (run initial evs) = None
  ∧ loading (run (run initial evs) [AuthStateChange (Some s)]) = false.
Proof.
  intros s evs.
  destruct (latest_report_decides evs) as (_ & Huser & Hloading).
  split; [exact Huser|]. apply Hloading. reflexivity.
Defined.

(** X15: the only thing the page does on its own during a run is to send
    the visitor to the login route, once for every report that carries no
    session and never otherwise: no sign-out, no toast, no other route. *)
Theorem redirects_follow_null_reports (st : State) (evs : list Event) :
  run_effects st evs
    = omap (λ ev, match reported ev with
                  | Some None => Some (Navigate "/auth")
                  | _ => None
                  end) evs.
Proof.
  revert st. induction evs as [|ev evs IH]; intros st; [reflexivity|].
  cbn [run_effects omap]. rewrite IH. by destruct ev as [[s|]|[s|]|].
Qed.

End GateMore.

(** ** Credential vault: what a submission, a delete and a fetch leave behind *)

Section Vault.
Import PasswordManager.

Lemma fetchPasswords_cases w :
  fetchPasswords w =
    match select_answer w with
    | inl error =>
        ([DbSelect; Toast "Error" (message error) destructive; SetLoading false], inr ())
    | inr data => ([DbSelect; SetPasswords (default [] data); SetLoading false], inr ())
    end.
Proof. unfold fetchPasswords. by destruct (select_answer w). Qed.

(** X16: a fetch makes one remote call, the select, and ends with the
    loading flag off.  On an error the cached records are kept and the
    store's message is shown; on success the cached records become the
    answer, an absent answer counting as empty.  The dialog, the record being
    edited and the reveal-set are never touched. *)
Theorem fetchPasswords_outcomes (w : World) (st : State) :
  let t := Eff.trace (fetchPasswords w) in
  let st' := commit st t in
  loading st' = false
  ∧ List.filter is_remote t = [DbSelect]
  ∧ isDialogOpen st' = isDialogOpen st
  ∧ editingPassword st' = editingPassword st
  ∧ visiblePasswords st' = visiblePasswords st
  ∧ match select_answer w with
    | inl error =>
        passwords st' = passwords st
        ∧ Toast "Error" (message error) destructive ∈ t
    | inr data => passwords st' = default [] data
    end.
Proof.
  cbn zeta. rewrite fetchPasswords_cases.
  destruct (select_answer w) as [e|data]; cbn; repeat split; set_solver.
Qed.

(** X17: a submission that finds no signed-in user, or whose write the store
    rejects, shows one error toast (the fixed text, or the store's message)
    and leaves the component as it was: the dialog stays open on the same
    record, the form is not reset, and the list is not fetched again.  With
    no user nothing is written. *)
Theorem onSubmit_failure_keeps_dialog
    (editing : option Password) (w : World) (data : PasswordFormData) (st : State) :
  let t := Eff.trace (onSubmit editing w data) in
  (getUser w = None →
     t = [AuthGetUser; Toast "Error" "Usuario no autenticado" destructive]
     ∧ commit st t = st)
  ∧ (∀ u e, getUser w = Some u → write_error w = Some e →
       commit st t = st
       ∧ List.filter is_select t = []
       ∧ length (writes t) = 1
       ∧ last t = Some (Toast "Error" (message e) destructive)).
Proof.
  cbn zeta. split.
  - intros Hu. rewrite onSubmit_signed_out by exact Hu. by destruct st.
  - intros u e Hu He. unfold onSubmit. rewrite Hu, He.
    destruct editing; cbn; by destruct st.
Qed.

(** X17, on a create with the session gone. *)
Lemma onSubmit_failure_keeps_dialog_witness :
  let w := {| getUser := None; write_error := None; select_answer := inr None |} in
  let data := {| platform_name := "Gmail"; username := "ana"; password := "s3cret";
                 description := None; token := None |} in
  let st := {| passwords := []; loading := false; isDialogOpen := true;
               visiblePasswords := ∅; editingPassword := None |} in
  commit st (Eff.trace (onSubmit None w data)) = st.
Proof.
  intros w data st.
  apply (onSubmit_failure_keeps_dialog None w data st). reflexivity.
Defined.

Lemma onSubmit_success_clears_editing editing w u data st :
  getUser w = Some u → write_error w = None →
  editingPassword (commit st (Eff.trace (onSubmit editing w data))) = None.
Proof.
  intros Hu He. unfold onSubmit. rewrite Hu, He, fetchPasswords_cases.
  by destruct editing, (select_answer w).
Qed.

(** X18: a submission whose write the store accepts makes three remote
    calls in this order: who is signed in, the write (an update of the record
    being edited, or an insert), the select.  It then leaves the dialog
    closed, no record being edited and the loading flag off, and the cached
    records are those of the select when it succeeds, the old ones when it
    fails. *)
Theorem onSubmit_success_refetches
    (editing : option Password) (w : World) (u : User) (data : PasswordFormData)
    (st : State) :
  getUser w = Some u → write_error w = None →
  let t := Eff.trace (onSubmit editing w data) in
  let st' := commit st t in
  (∃ write, List.filter is_remote t = [AuthGetUser; write; DbSelect]
            ∧ is_write write = true
            ∧ match editing with
              | Some p => write = DbUpdate data (id p)
              | None => ∃ row, write = DbInsert row ∧ row_user_id row = Auth.id u
              end)
  ∧ isDialogOpen st' = false
  ∧ editingPassword st' = None
  ∧ loading st' = false
  ∧ passwords st' = match select_answer w with
                    | inl _ => passwords st
                    | inr answer => default [] answer
                    end.
Proof.
  intros Hu He. cbn zeta. unfold onSubmit. rewrite Hu, He, fetchPasswords_cases.
  destruct editing as [p|], (select_answer w) as [e|answer]; cbn;
    (split; [eexists; split; [reflexivity|]; split; [reflexivity|]; eauto|]);
    repeat split.
Qed.

(** X18, on a create. *)
Lemma onSubmit_success_refetches_witness :
  let u := {| Auth.id := "u1"; email := None |} in
  let data := {| platform_name := "Gmail"; username := "ana"; password := "s3cret";
                 description := None; token := None |} in
  let saved := {| form := data; id := "7"; created_at := "2024-01-01" |} in
  let w := {| getUser := Some u; write_error := None;
              select_answer := inr (Some [saved]) |} in
  passwords (commit initial (Eff.trace (onSubmit None w data))) = [saved].
Proof.
  intros u data saved w.
  apply (onSubmit_success_refetches None w u data initial); reflexivity.
Defined.

Lemma or_null_not_empty x : JS.or_null x ≠ Some "".
Proof.
  unfold JS.or_null. destruct x as [s|]; [|discriminate].
  destruct (decide (s = "")); [discriminate|congruence].
Qed.

(** X19: every row a submission inserts is owned by the signed-in user,
    carries the three required fields as submitted, and has in its note and
    token columns either null or a non-empty text, never the empty string;
    and a row is inserted only when no record is being edited. *)
Theorem inserted_row_is_normalized
    (editing : option Password) (w : World) (data : PasswordFormData) (row : Row) :
  DbInsert row ∈ Eff.trace (onSubmit editing w data) →
  editing = None
  ∧ (∃ u, getUser w = Some u ∧ row_user_id row = Auth.id u)
  ∧ row_platform_name row = platform_name data
  ∧ row_username row = username data
  ∧ row_password row = password data
  ∧ row_description row ≠ Some ""
  ∧ row_token row ≠ Some ""
  ∧ (∀ s, s ≠ "" → description data = Some s → row_description row = Some s)
  ∧ (∀ s, s ≠ "" → token data = Some s → row_token row = Some s).
Proof.
  intros Hin.
  assert (Hw : DbInsert row ∈ writes (Eff.trace (onSubmit editing w data))).
  { apply list_elem_of_In, filter_In. split; [by apply list_elem_of_In|reflexivity]. }
  destruct (getUser w) as [u|] eqn:Hu.
  - destruct editing as [p|].
    + rewrite (onSubmit_update_writes p w u data Hu) in Hw.
      apply list_elem_of_singleton in Hw. discriminate.
    + rewrite (onSubmit_insert_writes w u data Hu) in Hw.
      apply list_elem_of_singleton in Hw. injection Hw as ->. cbn.
      split; [reflexivity|]. split; [by exists u|].
      do 3 (split; [reflexivity|]).
      split; [apply or_null_not_empty|]. split; [apply or_null_not_empty|].
      split; intros s Hs ->; cbn; by rewrite decide_False.
  - rewrite (onSubmit_signed_out editing w data Hu) in Hw. cbn in Hw.
    by apply elem_of_nil in Hw.
Qed.

(** X19, on a create with an empty note and a token. *)
Lemma inserted_row_is_normalized_witness :
  let u := {| Auth.id := "u1"; email := None |} in
  let w := {| getUser := Some u; write_error := None; select_answer := inr None |} in
  let data := {| platform_name := "Gmail"; username := "ana"; password := "s3cret";
                 description := Some ""; token := Some "tok" |} in
  let row := {| row_platform_name := "Gmail"; row_username := "ana";
                row_password := "s3cret"; row_description := None;
                row_token := Some "tok"; row_user_id := "u1" |} in
  row_description row ≠ Some "" ∧ row_token row = Some "tok".
Proof.
  intros u w data row.
  destruct (inserted_row_is_normalized None w data row)
    as (_ & _ & _ & _ & _ & Hd & _ & _ & Ht).
  - cbn. right. left.
  - split; [exact Hd|]. by apply Ht.
Defined.

End Vault.

(** ** Credential vault: deleting, the schema, the reveal-set, the dialog *)

Section VaultMore.
Import PasswordManager.

(** X20: deleting a record first asks the user.  On a no, nothing is sent
    and nothing changes.  On a yes, one delete is sent for that id; the list
    is fetched again only when the store accepted the delete; when the store
    rejects it, its message is shown and the component is left as it was. *)
Theorem vault_delete_asks_first (id : string) (confirmed : bool) (w : World) (st : State) :
  let t := Eff.trace (handleDelete id confirmed w) in
  head t = Some (Confirm "¿Estás seguro de eliminar esta contraseña?")
  ∧ (confirmed = false → List.filter is_remote t = [] ∧ commit st t = st)
  ∧ (confirmed = true →
       match write_error w with
       | Some e =>
           List.filter is_remote t = [DbDelete id]
           ∧ commit st t = st
           ∧ Toast "Error" (message e) destructive ∈ t
       | None =>
           List.filter is_remote t = [DbDelete id; DbSelect]
           ∧ loading (commit st t) = false
       end).
Proof.
  cbn zeta. unfold handleDelete. rewrite fetchPasswords_cases.
  destruct confirmed; [destruct (write_error w) as [e|]; [|destruct (select_answer w)]|];
    cbn.
  - split; [reflexivity|]. split; [discriminate|]. intros _.
    split; [reflexivity|]. split; [by destruct st|set_solver].
  - split; [reflexivity|]. split; [discriminate|]. done.
  - split; [reflexivity|]. split; [discriminate|]. done.
  - split; [reflexivity|]. split; [|discriminate]. intros _.
    split; [reflexivity|by destruct st].
Qed.

(** X20, on a question answered no. *)
Lemma vault_delete_asks_first_witness :
  let w := {| getUser := None; write_error := None; select_answer := inr None |} in
  List.filter is_remote (Eff.trace (handleDelete "7" false w)) = [].
Proof.
  intros w.
  destruct (vault_delete_asks_first "7" false w initial) as (_ & Hno & _).
  by apply Hno.
Defined.

Lemma min_max_one_issue msg b s :
  1 ≤ b → length (min 1 msg s ++ max b s) ≤ 1.
Proof.
  intros Hb. unfold min, max.
  destruct (Nat.ltb_spec (String.length s) 1), (Nat.ltb_spec b (String.length s));
    cbn; lia.
Qed.

Lemma optional_max_one_issue b x : length (optional (max b) x) ≤ 1.
Proof.
  destruct x as [s|]; cbn; [|lia]. unfold max.
  destruct (b <? String.length s); cbn; lia.
Qed.

Lemma at_field_fst f issues : fst <$> at_field f issues = replicate (length issues) f.
Proof.
  unfold at_field. induction issues as [|i issues IH]; [reflexivity|].
  cbn. by rewrite IH.
Qed.

(** X21: the schema reports at most one issue under each field, five at
    most in all, and lists them in the order of the form: platform name,
    username, secret, note, token. *)
Theorem passwordSchema_one_issue_per_field (d : PasswordFormData) :
  NoDup (fst <$> passwordSchema d)
  ∧ length (passwordSchema d) ≤ 5
  ∧ fst <$> passwordSchema d
    `sublist_of` [platform_name_f; username_f; password_f; description_f; token_f].
Proof.
  assert (Hone : ∀ n (f : Field), n ≤ 1 → replicate n f `sublist_of` [f]).
  { intros n f Hn. assert (n = 0 ∨ n = 1) as [-> | ->] by lia; cbn.
    - apply sublist_nil_l.
    - reflexivity. }
  assert (Hsub : fst <$> passwordSchema d
                 `sublist_of` [platform_name_f; username_f; password_f;
                               description_f; token_f]).
  { unfold passwordSchema. rewrite !fmap_app, !at_field_fst.
    change [platform_name_f; username_f; password_f; description_f; token_f]
      with ([platform_name_f] ++ [username_f] ++ [password_f]
            ++ [description_f] ++ [token_f]).
    repeat apply sublist_app; apply Hone;
      first [apply min_max_one_issue; lia | apply optional_max_one_issue]. }
  split; [|split; [|exact Hsub]].
  - eapply sublist_NoDup; [|exact Hsub].
    apply (bool_decide_unpack _). vm_compute. reflexivity.
  - apply sublist_length in Hsub. rewrite length_fmap in Hsub. exact Hsub.
Qed.

Lemma toggle_comm i j (s : gset string) : toggle i (toggle j s) = toggle j (toggle i s).
Proof.
  apply set_eq. intros k. rewrite !toggle_elem_of.
  destruct (decide (k = i)), (decide (k = j)), (decide (i ∈ s)), (decide (j ∈ s));
    naive_solver.
Qed.

(** X22: reveal toggles on different cards do not interfere: two toggles
    give the same reveal-set in either order, and a toggle changes what is
    shown, secret and token alike, only on cards carrying the toggled id. *)
Theorem toggles_are_independent (st : State) (i j : string) :
  let tog := λ k s, commit s (Eff.trace (togglePasswordVisibility k)) in
  visiblePasswords (tog i (tog j st)) = visiblePasswords (tog j (tog i st))
  ∧ (∀ pwd, id pwd ≠ i →
       shown (tog i st) pwd = shown st pwd
       ∧ shown_token (tog i st) pwd = shown_token st pwd).
Proof.
  cbn. split; [apply toggle_comm|].
  intros pwd Hne. unfold shown, shown_token. cbn.
  assert (Hiff : id pwd ∈ toggle i (visiblePasswords st) ↔ id pwd ∈ visiblePasswords st)
    by (rewrite toggle_elem_of; naive_solver).
  split.
  - destruct (decide (id pwd ∈ toggle i (visiblePasswords st))),
      (decide (id pwd ∈ visiblePasswords st)); tauto.
  - destruct (token (form pwd)) as [t|]; [|reflexivity].
    destruct (decide (t = "")); [reflexivity|].
    destruct (decide (id pwd ∈ toggle i (visiblePasswords st))),
      (decide (id pwd ∈ visiblePasswords st)); tauto.
Qed.

(** X23: which write a submission sends follows the dialog.  Right after
    the edit button of a record, a valid submission by a signed-in user
    updates that record, under its id.  After the dialog is closed, or after
    a submission that the store accepted, no record is being edited and the
    next valid submission inserts a new row. *)
Theorem dialog_decides_the_write
    (st : State) (p : Password) (w : World) (u : User) (values : PasswordFormData) :
  getUser w = Some u → passwordSchema values = [] →
  let editing := commit st (Eff.trace (handleEdit p)) in
  let closed := commit editing (Eff.trace handleCloseDialog) in
  let inserts := λ s, ∃ row, writes (Eff.trace (submitForm s w values)) = [DbInsert row] in
  isDialogOpen editing = true
  ∧ writes (Eff.trace (submitForm editing w values)) = [DbUpdate values (id p)]
  ∧ isDialogOpen closed = false
  ∧ inserts closed
  ∧ (write_error w = None →
       inserts (commit editing (Eff.trace (submitForm editing w values)))).
Proof.
  intros Hu Hok. cbn zeta.
  split; [reflexivity|]. split; [|split; [reflexivity|split]].
  - unfold submitForm, submit. rewrite handleSubmit_accepts by exact Hok.
    cbn [editingPassword commit]. by apply (onSubmit_update_writes p w u).
  - unfold submitForm, submit. rewrite handleSubmit_accepts by exact Hok.
    eexists. by apply (onSubmit_insert_writes w u).
  - intros He.
    assert (Hediting : editingPassword
              (commit (commit st (Eff.trace (handleEdit p)))
                 (Eff.trace (submitForm (commit st (Eff.trace (handleEdit p))) w values)))
              = None).
    { unfold submitForm, submit. rewrite handleSubmit_accepts by exact Hok.
      by apply (onSubmit_success_clears_editing (Some p) w u values). }
    unfold submitForm at 1. rewrite Hediting. unfold submit.
    rewrite handleSubmit_accepts by exact Hok.
    eexists. by apply (onSubmit_insert_writes w u).
Qed.

(** X23, on a record edited and then submitted. *)
Lemma dialog_decides_the_write_witness :
  let u := {| Auth.id := "u1"; email := None |} in
  let w := {| getUser := Some u; write_error := None; select_answer := inr None |} in
  let values := {| platform_name := "Gmail"; username := "ana"; password := "n3w";
                   description := Some ""; token := None |} in
  let p := {| form := values; id := "7"; created_at := "2024-01-01" |} in
  writes (Eff.trace (submitForm (commit initial (Eff.trace (handleEdit p))) w values))
    = [DbUpdate values "7"].
Proof.
  intros u w values p.
  apply (dialog_decides_the_write initial p w u values); reflexivity.
Defined.

End VaultMore.

(** ** Errors stop at the handlers *)

Section Boundaries.

(** X24: none of the vault's and the list's handlers lets an error out:
    whatever the session provider and the stores answer, a submission (valid
    or not), a fetch, a vault delete, a file delete and a file open all
    return normally, the error having been turned into a toast. *)
Theorem handlers_throw_nothing
    (editing : option PasswordManager.Password) (w : PasswordManager.World)
    (values : PasswordManager.PasswordFormData) (id : string) (confirmed : bool)
    (files : list FileList.FileItem) (file : FileList.FileItem)
    (error : option JsError) (answer : JsError + option string) :
  snd (PasswordManager.submit editing w values) = inr ()
  ∧ snd (PasswordManager.onSubmit editing w values) = inr ()
  ∧ snd (PasswordManager.fetchPasswords w) = inr ()
  ∧ snd (PasswordManager.handleDelete id confirmed w) = inr ()
  ∧ snd (FileList.handleDelete files file error) = inr ()
  ∧ snd (FileList.handleOpenFile file answer) = inr ().
Proof.
  assert (Hfetch : snd (PasswordManager.fetchPasswords w) = inr ())
    by (rewrite fetchPasswords_cases; by destruct (PasswordManager.select_answer w)).
  assert (Hsubmit : snd (PasswordManager.onSubmit editing w values) = inr ()).
  { unfold PasswordManager.onSubmit. rewrite fetchPasswords_cases.
    destruct (PasswordManager.getUser w), editing, (PasswordManager.write_error w),
      (PasswordManager.select_answer w); reflexivity. }
  split; [|split; [exact Hsubmit|split; [exact Hfetch|split; [|split]]]].
  - unfold PasswordManager.submit, PasswordManager.handleSubmit.
    destruct (PasswordManager.passwordSchema values); [exact Hsubmit|reflexivity].
  - unfold PasswordManager.handleDelete. rewrite fetchPasswords_cases.
    destruct confirmed, (PasswordManager.write_error w),
      (PasswordManager.select_answer w); reflexivity.
  - by destruct error.
  - unfold FileList.handleOpenFile. destruct answer as [e|[url|]]; try reflexivity.
    cbn. by destruct (decide (url = "")).
Qed.

End Boundaries.
